(** * Order matching and position accounting of the FRP trading system

    A shallow embedding of the C++ execution engine
    ([cpp/src/execution_engine.cpp] with its header [execution_engine.hpp])
    and the properties of its order book.

    Numeric model.  A C++ [int] is a [Z] in the range [INT_MIN .. INT_MAX];
    the results of [+=], [-=] and [+] on [int] are wrapped with [int_wrap]
    (two's complement; the statements below that depend on a sum staying in
    range say so).  A C++ [double] is a [float], the IEEE 754 binary64
    numbers with their rounding to nearest, their infinities and NaN: [+],
    [-], [*] and [/] are the operations of [PrimFloat], each rounded on its
    own, [<] and [>=] are [PrimFloat.ltb] and [PrimFloat.leb], which are
    false on NaN, and an [int] operand is converted with [double_of_int].

    [std::lock_guard] acquisitions are not part of the functions that
    change or read one field of a book; module [Locking] has the methods
    with their mutex, and [OrderBook::get_unrealized_pnl], whose outcome
    depends on it, is defined there only. *)

From Stdlib Require Import ZArith Floats Lia ZifyNat Ascii.
From Stdlib Require Uint63.
From stdpp Require Import base option list gmap strings.

Local Open Scope Z_scope.

(** [lia] decides the index arithmetic of the heap, [/ 2] included. *)
Ltac Zify.zify_post_hook ::= Z.to_euclidean_division_equations.

(** ** Machine integers *)

Definition INT_MIN : Z := - 2 ^ 31.
Definition INT_MAX : Z := 2 ^ 31 - 1.

Definition in_int (z : Z) : Prop := INT_MIN <= z <= INT_MAX.

Definition int_wrap (z : Z) : Z := (z + 2 ^ 31) mod 2 ^ 32 - 2 ^ 31.

(** ** Floating-point numbers *)

Abbreviation double := float (only parsing).

(** The conversion of an [int] to [double]; it is exact, an [int] having
    no more than 31 significant bits. *)
Definition double_of_int (z : Z) : double :=
  if z <? 0 then PrimFloat.opp (PrimFloat.of_uint63 (Uint63.of_Z (- z)))
  else PrimFloat.of_uint63 (Uint63.of_Z z).

(** The comparison of two numbers; there is none when one is NaN. *)
Definition cmp (a b : double) : option comparison :=
  SFcompare (Prim2SF a) (Prim2SF b).

(** [0.01] as the compiler reads it: the nearest binary64 number. *)
Definition one_percent : double := 0x1.47ae147ae147bp-7%float.

(** ** Data (execution_engine.hpp) *)

Record Order := mkOrder {
  order_id : string;
  symbol : string;
  price : double;
  quantity : Z;
  is_buy : bool
}.

Record MarketData := mkMarketData {
  md_symbol : string;
  md_price : double;
  md_volume : double;
  md_timestamp : string
}.

Record Trade := mkTrade {
  trade_order_id : string;
  trade_symbol : string;
  trade_price : double;
  trade_quantity : Z;
  trade_timestamp : string
}.

(** [const_cast<Order&>(o).quantity -= m] *)
Definition sub_quantity (o : Order) (m : Z) : Order :=
  mkOrder (order_id o) (symbol o) (price o) (int_wrap (quantity o - m)) (is_buy o).

(** [OrderBook::OrderCompare::operator()] *)
Definition OrderCompare (a b : Order) : bool :=
  if is_buy a then (price a <? price b)%float else (price b <? price a)%float.

(** ** [std::priority_queue<Order, std::vector<Order>, OrderCompare>]

    The container adaptor keeps a vector [c] arranged as a binary heap:
    [push] is [c.push_back(x); std::push_heap(c.begin(), c.end(), comp)],
    [pop] is [std::pop_heap(c.begin(), c.end(), comp); c.pop_back()] and
    [top] is [c.front()].  The two heap algorithms follow libstdc++
    ([__push_heap], [__adjust_heap] in [bits/stl_heap.h]): a hole travels
    through the vector and the displaced value is stored once, at the end. *)

Section priority_queue.
Context {A : Type} (comp : A -> A -> bool).

  (** [__push_heap(first, holeIndex, topIndex, value, comp)]: the loop
      [while (holeIndex > topIndex && comp(first + parent, value))].
      The hole index strictly decreases, so [fuel = holeIndex] runs the
      loop to its exit. *)
Fixpoint push_heap_aux (fuel : nat) (first : list A)
      (holeIndex topIndex : nat) (value : A) : list A :=
    match fuel with
    | O => <[holeIndex := value]> first
    | S fuel' =>
        let parent := ((holeIndex - 1) / 2)%nat in
        match first !! parent with
        | Some p =>
            if (topIndex <? holeIndex)%nat && comp p value
            then push_heap_aux fuel' (<[holeIndex := p]> first) parent topIndex value
            else <[holeIndex := value]> first
        | None => <[holeIndex := value]> first
        end
    end.

  (** [std::push_heap(first, last, comp)] *)
Definition push_heap (c : list A) : list A :=
    match c !! (length c - 1)%nat with
    | Some value => push_heap_aux (length c - 1) c (length c - 1) 0 value
    | None => c
    end.

  (** First loop of [__adjust_heap]:
      [while (secondChild < (len - 1) / 2)]; at the loop head
      [secondChild = holeIndex].  The hole index strictly increases. *)
Fixpoint adjust_heap_loop (fuel : nat) (first : list A)
      (holeIndex len : nat) : list A * nat :=
    match fuel with
    | O => (first, holeIndex)
    | S fuel' =>
        if (holeIndex <? (len - 1) / 2)%nat then
          let secondChild := (2 * (holeIndex + 1))%nat in
          match first !! secondChild, first !! (secondChild - 1)%nat with
          | Some r, Some l =>
              if comp r l
              then adjust_heap_loop fuel' (<[holeIndex := l]> first) (secondChild - 1) len
              else adjust_heap_loop fuel' (<[holeIndex := r]> first) secondChild len
          | _, _ => (first, holeIndex)
          end
        else (first, holeIndex)
    end.

  (** The [if ((len & 1) == 0 && secondChild == (len - 2) / 2)] that
      follows the loop: a last node with a single child. *)
Definition adjust_heap_last (first : list A) (holeIndex len : nat) : list A * nat :=
    if Nat.even len && (holeIndex =? (len - 2) / 2)%nat then
      let secondChild := (2 * (holeIndex + 1))%nat in
      match first !! (secondChild - 1)%nat with
      | Some l => (<[holeIndex := l]> first, (secondChild - 1)%nat)
      | None => (first, holeIndex)
      end
    else (first, holeIndex).

  (** [__adjust_heap(first, holeIndex, len, value, comp)] *)
Definition adjust_heap (first : list A) (holeIndex len : nat) (value : A) : list A :=
    let topIndex := holeIndex in
    let '(first1, hole1) := adjust_heap_loop len first holeIndex len in
    let '(first2, hole2) := adjust_heap_last first1 hole1 len in
    push_heap_aux hole2 first2 hole2 topIndex value.

  (** [std::pop_heap(first, last, comp)]: the old top moves to the last
      slot and the old last value is sifted from the root. *)
Definition pop_heap (c : list A) : list A :=
    if (1 <? length c)%nat then
      match c !! (length c - 1)%nat, c !! 0%nat with
      | Some value, Some top =>
          adjust_heap (<[(length c - 1)%nat := top]> c) 0 (length c - 1) value
      | _, _ => c
      end
    else c.

Definition pq_push (x : A) (c : list A) : list A := push_heap (c ++ [x]).
Definition pq_pop (c : list A) : list A := removelast (pop_heap c).
Definition pq_top (c : list A) : option A := head c.
End priority_queue.

(** The heap property of the vector: no parent compares less than a child. *)
Definition is_heap {A : Type} (comp : A -> A -> bool) (c : list A) : Prop :=
  forall i x y, (0 < i)%nat ->
    c !! ((i - 1) / 2)%nat = Some x -> c !! i = Some y -> comp x y = false.

(** ** [class OrderBook] *)

Record OrderBook := mkOrderBook {
  symbol_ : string;
  buy_orders : list Order;
  sell_orders : list Order;
  position_ : Z;
  average_price_ : double;
  realized_pnl_ : double
}.

(** [explicit OrderBook(const std::string& symbol)] *)
Definition new_OrderBook (s : string) : OrderBook := mkOrderBook s [] [] 0 0 0.

Definition matched_quantity (buy sell : Order) : Z := Z.min (quantity buy) (quantity sell).
Definition matched_price (buy sell : Order) : double :=
  ((price buy + price sell) / 2)%float.

(** One iteration of the [while] of [OrderBook::match_orders]; [None] is
    the exit of the loop: a queue is empty and has no top, or the
    [break]. *)
Definition match_step (bk : OrderBook) : option OrderBook :=
  match pq_top (buy_orders bk), pq_top (sell_orders bk) with
  | Some buy, Some sell =>
      if (price sell <=? price buy)%float then
        let mq := matched_quantity buy sell in
        let mp := matched_price buy sell in
        let buys' :=
          if quantity buy =? mq then pq_pop OrderCompare (buy_orders bk)
          else <[0%nat := sub_quantity buy mq]> (buy_orders bk) in
        let sells' :=
          if quantity sell =? mq then pq_pop OrderCompare (sell_orders bk)
          else <[0%nat := sub_quantity sell mq]> (sell_orders bk) in
        (* position_ += matched_quantity; old_value reads position_ after it *)
        let position' := int_wrap (position_ bk + mq) in
        let old_value := (average_price_ bk * double_of_int position')%float in
        let new_value := (mp * double_of_int mq)%float in
        let average_price' :=
          ((old_value + new_value) / double_of_int (int_wrap (position' + mq)))%float in
        (* realized_pnl_ reads average_price_ after its update *)
        let realized_pnl' :=
          (realized_pnl_ bk + (mp - average_price') * double_of_int mq)%float in
        Some (mkOrderBook (symbol_ bk) buys' sells' position' average_price' realized_pnl')
      else None
  | _, _ => None
  end.

(** The [while] loop.  Every iteration pops an order from at least one
    side, so the number of resting orders bounds the iterations. *)
Fixpoint match_orders_loop (fuel : nat) (bk : OrderBook) : OrderBook :=
  match fuel with
  | O => bk
  | S fuel' =>
      match match_step bk with
      | Some bk' => match_orders_loop fuel' bk'
      | None => bk
      end
  end.

Definition book_size (bk : OrderBook) : nat :=
  (length (buy_orders bk) + length (sell_orders bk))%nat.

(** [OrderBook::match_orders] *)
Definition match_orders (bk : OrderBook) : OrderBook :=
  match_orders_loop (book_size bk) bk.

(** The [if (order.is_buy) buy_orders.push(order); else sell_orders.push(order);]
    of [OrderBook::add_order] *)
Definition push_order (order : Order) (bk : OrderBook) : OrderBook :=
  if is_buy order
  then mkOrderBook (symbol_ bk) (pq_push OrderCompare order (buy_orders bk)) (sell_orders bk)
         (position_ bk) (average_price_ bk) (realized_pnl_ bk)
  else mkOrderBook (symbol_ bk) (buy_orders bk) (pq_push OrderCompare order (sell_orders bk))
         (position_ bk) (average_price_ bk) (realized_pnl_ bk).

(** [OrderBook::add_order] *)
Definition add_order (order : Order) (bk : OrderBook) : OrderBook :=
  match_orders (push_order order bk).

(** [OrderBook::get_best_bid], [get_best_ask] *)
Definition get_best_bid (bk : OrderBook) : double :=
  match pq_top (buy_orders bk) with Some o => price o | None => 0%float end.
Definition get_best_ask (bk : OrderBook) : double :=
  match pq_top (sell_orders bk) with Some o => price o | None => 0%float end.

Definition get_position (bk : OrderBook) : Z := position_ bk.
Definition get_average_price (bk : OrderBook) : double := average_price_ bk.
Definition get_realized_pnl (bk : OrderBook) : double := realized_pnl_ bk.

Definition buy_side (x : Order) : Prop := is_buy x = true.
Definition sell_side (x : Order) : Prop := is_buy x = false.

(** An order whose price is a number: not NaN. *)
Definition priced (x : Order) : Prop := PrimFloat.is_nan (price x) = false.

(** Every order is in the queue of its side. *)
Record sides_ok (bk : OrderBook) : Prop := mk_sides_ok {
  buys_side : Forall buy_side (buy_orders bk);
  sells_side : Forall sell_side (sell_orders bk)
}.

(** What the two queues of a book satisfy between calls when no price is
    NaN: on orders with a price [OrderCompare] is a strict weak ordering,
    and the queues are heaps for it. *)
Record book_ok (bk : OrderBook) : Prop := mk_book_ok {
  buys_ok : Forall (fun x => buy_side x /\ priced x) (buy_orders bk);
  sells_ok : Forall (fun x => sell_side x /\ priced x) (sell_orders bk);
  buys_heap : is_heap OrderCompare (buy_orders bk);
  sells_heap : is_heap OrderCompare (sell_orders bk)
}.

(** A sequence of [add_order] calls on one book. *)
Definition run_orders (os : list Order) (bk : OrderBook) : OrderBook :=
  fold_left (fun b x => add_order x b) os bk.

(** Total remaining quantity of a queue. *)
Definition sum_quantity (c : list Order) : Z :=
  foldr (fun x acc => quantity x + acc) 0 c.

(** Orders whose quantity is a positive [int]. *)
Definition positive_quantity (x : Order) : Prop := 0 < quantity x <= INT_MAX.

(** ** [class ExecutionEngine]

    A [std::function] callback is an opaque handle; what the engine does
    with it is to call it, and a call is recorded as a [call] event. *)

Definition MarketDataCallback := nat.
Definition TradeCallback := nat.

Inductive call :=
  | CallMarketData (cb : MarketDataCallback) (data : MarketData)
  | CallTrade (cb : TradeCallback) (t : Trade).

Module Engine.

Section engine.
(** [dis k] is the [k]-th value that [dis(gen)] yields in
    [generate_order_id], a number from 0 to 15. *)
Variable dis : nat -> nat.

Definition digits : string := "0123456789abcdef".

Definition digit (n : nat) : Ascii.ascii :=
  match String.get (n mod 16) digits with Some c => c | None => "0"%char end.

(** The [for (int i = 0; i < 36; i++)] of [generate_order_id], with [n]
    iterations left and [k] draws consumed. *)
Fixpoint generate_order_id_from (n i k : nat) : string * nat :=
  match n with
  | O => (String.EmptyString, k)
  | S n' =>
      if (i =? 8)%nat || (i =? 13)%nat || (i =? 18)%nat || (i =? 23)%nat
      then let '(uuid, k') := generate_order_id_from n' (S i) k in
           (String.String "-"%char uuid, k')
      else let '(uuid, k') := generate_order_id_from n' (S i) (S k) in
           (String.String (digit (dis k)) uuid, k')
  end.

Definition generate_order_id (k : nat) : string * nat :=
  generate_order_id_from 36 0 k.

Record ExecutionEngine := mkEngine {
  running : bool;
  order_books : gmap string OrderBook;
  market_data_callbacks : gmap string (list MarketDataCallback);
  trade_callbacks : gmap string (list TradeCallback);
  id_draws : nat
}.

(** [ExecutionEngine::ExecutionEngine() = default] *)
Definition new_ExecutionEngine : ExecutionEngine := mkEngine false ∅ ∅ ∅ 0.

(** [order_books.try_emplace(symbol, OrderBook(symbol))] *)
Definition try_emplace (s : string) (books : gmap string OrderBook) : gmap string OrderBook :=
  match books !! s with
  | Some _ => books
  | None => <[s := new_OrderBook s]> books
  end.

Definition with_id (order : Order) (id : string) : Order :=
  mkOrder id (symbol order) (price order) (quantity order) (is_buy order).

(** [ExecutionEngine::submit_order]: the returned id, the engine after
    the call and the callbacks called during it. *)
Definition submit_order (order : Order) (e : ExecutionEngine)
    : string * ExecutionEngine * list call :=
  let books := try_emplace (symbol order) (order_books e) in
  let '(id, k) := generate_order_id (id_draws e) in
  let order_with_id := with_id order id in
  let books' := alter (add_order order_with_id) (symbol order) books in
  (id,
   mkEngine (running e) books' (market_data_callbacks e) (trade_callbacks e) k,
   []).

(** [callbacks[symbol].push_back(callback)] *)
Definition push_callback (s : string) (cb : nat) (m : gmap string (list nat))
    : gmap string (list nat) :=
  <[s := default [] (m !! s) ++ [cb]]> m.

Definition subscribe_market_data (s : string) (cb : MarketDataCallback)
    (e : ExecutionEngine) : ExecutionEngine :=
  mkEngine (running e) (order_books e) (push_callback s cb (market_data_callbacks e))
    (trade_callbacks e) (id_draws e).

Definition unsubscribe_market_data (s : string) (e : ExecutionEngine) : ExecutionEngine :=
  mkEngine (running e) (order_books e) (delete s (market_data_callbacks e))
    (trade_callbacks e) (id_draws e).

Definition subscribe_trades (s : string) (cb : TradeCallback)
    (e : ExecutionEngine) : ExecutionEngine :=
  mkEngine (running e) (order_books e) (market_data_callbacks e)
    (push_callback s cb (trade_callbacks e)) (id_draws e).

Definition unsubscribe_trades (s : string) (e : ExecutionEngine) : ExecutionEngine :=
  mkEngine (running e) (order_books e) (market_data_callbacks e)
    (delete s (trade_callbacks e)) (id_draws e).

(** [start] and [stop], as far as the [running] flag goes. *)
Definition start (e : ExecutionEngine) : ExecutionEngine :=
  mkEngine true (order_books e) (market_data_callbacks e) (trade_callbacks e) (id_draws e).
Definition stop (e : ExecutionEngine) : ExecutionEngine :=
  mkEngine false (order_books e) (market_data_callbacks e) (trade_callbacks e) (id_draws e).

(** [MarketDataGenerator::generate]; [change] is the draw of
    [dist_(gen_)] and [now] the formatted clock. *)
Definition generate (s : string) (price_ change : double) (now : string)
    : MarketData * double :=
  let price' := (price_ * (1 + change * one_percent))%float in
  (mkMarketData s price' 100 now, price').

(** One pass of the [for] over [market_data_callbacks] in
    [market_data_thread_func]: every callback of every subscribed symbol
    is called with the tick of its symbol.  [generators] holds the last
    price per symbol (100.0 for a new generator); the pass visits the
    symbols in the order of [map_to_list]. *)
Definition market_data_pass (change : string -> double) (now : string)
    (generators : gmap string double) (e : ExecutionEngine)
    : gmap string double * list call :=
  foldr (fun '(s, callbacks) '(gens, calls) =>
           let '(data, price') :=
             generate s (default 100%float (gens !! s)) (change s) now in
           (<[s := price']> gens, map (fun cb => CallMarketData cb data) callbacks ++ calls))
        (generators, []) (map_to_list (market_data_callbacks e)).

(** The read queries that take each mutex once; [get_unrealized_pnl] is
    in [LockedEngine]. *)
Definition get_position (s : string) (e : ExecutionEngine) : Z :=
  match order_books e !! s with Some bk => get_position bk | None => 0 end.
Definition get_average_price (s : string) (e : ExecutionEngine) : double :=
  match order_books e !! s with Some bk => get_average_price bk | None => 0%float end.
Definition get_realized_pnl (s : string) (e : ExecutionEngine) : double :=
  match order_books e !! s with Some bk => get_realized_pnl bk | None => 0%float end.

(** The calls a client makes on an engine. *)
Inductive op :=
  | Start
  | Stop
  | SubmitOrder (order : Order)
  | SubscribeMarketData (s : string) (cb : MarketDataCallback)
  | UnsubscribeMarketData (s : string)
  | SubscribeTrades (s : string) (cb : TradeCallback)
  | UnsubscribeTrades (s : string).

Definition run_op (c : op) (e : ExecutionEngine) : ExecutionEngine * list call :=
  match c with
  | Start => (start e, [])
  | Stop => (stop e, [])
  | SubmitOrder order => let '(_, e', calls) := submit_order order e in (e', calls)
  | SubscribeMarketData s cb => (subscribe_market_data s cb e, [])
  | UnsubscribeMarketData s => (unsubscribe_market_data s e, [])
  | SubscribeTrades s cb => (subscribe_trades s cb e, [])
  | UnsubscribeTrades s => (unsubscribe_trades s e, [])
  end.

(** A sequence of calls, with all the callbacks called on the way. *)
Fixpoint run_ops (cs : list op) (e : ExecutionEngine) : ExecutionEngine * list call :=
  match cs with
  | [] => (e, [])
  | c :: cs' =>
      let '(e1, calls1) := run_op c e in
      let '(e2, calls2) := run_ops cs' e1 in
      (e2, calls1 ++ calls2)
  end.

End engine.
End Engine.

(** ** The mutexes

    [std::lock_guard<std::mutex> lock(m)] on a mutex the calling thread
    already holds does not return.  [held] tells whether the caller holds
    [book_mutex]. *)

Module Locking.

Inductive outcome (A : Type) :=
  | Returns (a : A)
  | Deadlock.
Arguments Returns {A} a.
Arguments Deadlock {A}.

Definition lock_guard {A : Type} (held : bool) (body : bool -> outcome A) : outcome A :=
  if held then Deadlock else body true.

Definition bind {A B : Type} (m : outcome A) (f : A -> outcome B) : outcome B :=
  match m with Returns a => f a | Deadlock => Deadlock end.

Definition add_order (held : bool) (order : Order) (bk : OrderBook) : outcome OrderBook :=
  lock_guard held (fun _ => Returns (add_order order bk)).
Definition get_best_bid (held : bool) (bk : OrderBook) : outcome double :=
  lock_guard held (fun _ => Returns (get_best_bid bk)).
Definition get_best_ask (held : bool) (bk : OrderBook) : outcome double :=
  lock_guard held (fun _ => Returns (get_best_ask bk)).
Definition get_position (held : bool) (bk : OrderBook) : outcome Z :=
  lock_guard held (fun _ => Returns (get_position bk)).
Definition get_average_price (held : bool) (bk : OrderBook) : outcome double :=
  lock_guard held (fun _ => Returns (get_average_price bk)).
Definition get_realized_pnl (held : bool) (bk : OrderBook) : outcome double :=
  lock_guard held (fun _ => Returns (get_realized_pnl bk)).

(** [OrderBook::get_unrealized_pnl] takes [book_mutex] and then calls
    the public [get_best_bid] and [get_best_ask], which take it again. *)
Definition get_unrealized_pnl (held : bool) (bk : OrderBook) : outcome double :=
  lock_guard held (fun held' =>
    bind (get_best_bid held' bk) (fun bid =>
    bind (get_best_ask held' bk) (fun ask =>
    let mid_price := ((bid + ask) / 2)%float in
    Returns (double_of_int (position_ bk) * (mid_price - average_price_ bk))%float))).

End Locking.


(** Total quantity of the buy orders of a sequence of submissions. *)
Definition buy_volume (os : list Order) : Z :=
  foldr (fun x acc => if is_buy x then quantity x + acc else acc) 0 os.

(** The accounting of volume on a book fed with orders of positive
    quantity whose buy volume [V] fits an [int]: the position and the
    resting buy quantity add up to [V]. *)
Record volume_ok (V : Z) (bk : OrderBook) : Prop := mk_volume_ok {
  vol_buys : Forall positive_quantity (buy_orders bk);
  vol_sells : Forall positive_quantity (sell_orders bk);
  vol_pos : 0 <= position_ bk;
  vol_sum : position_ bk + sum_quantity (buy_orders bk) = V;
  vol_max : V <= INT_MAX
}.

(** ** Inputs used below *)

Definition order (id : string) (p : double) (q : Z) (b : bool) : Order :=
  mkOrder id "AAPL" p q b.

(** A sell of 50 at 100 rests, then a buy of 100 at 105 crosses it. *)
Definition one_fill : OrderBook :=
  run_orders [order "s1" 100 50 false; order "b1" 105 100 true] (new_OrderBook "AAPL").

(** Then a sell of 30 at 95 crosses the rest of the buy. *)
Definition two_fills : OrderBook := add_order (order "s2" 95 30 false) one_fill.


(** A book as [add_order] has it between its [push] and [match_orders]:
    a buy of 100 at 105 on top of a sell of 50 at 100. *)
Definition crossed_book : OrderBook :=
  push_order (order "b1" 105 100 true)
    (push_order (order "s1" 100 50 false) (new_OrderBook "AAPL")).

(** The fill of the sample output of the README, 50 units at 100.25:
    the book between [push] and [match_orders], and after [add_order]. *)
Definition readme_book : OrderBook :=
  push_order (order "b" 100.25 50 true)
    (push_order (order "s" 100.25 50 false) (new_OrderBook "AAPL")).
Definition readme_fill : OrderBook :=
  run_orders [order "s" 100.25 50 false; order "b" 100.25 50 true]
    (new_OrderBook "AAPL").

(** A buy with a negative quantity rests, then a sell crosses it. *)
Definition negative_fill : OrderBook :=
  run_orders [order "b" 100 (-5) true; order "s" 90 10 false] (new_OrderBook "AAPL").

(** A random source for examples. *)
Definition dis0 (k : nat) : nat := k.

(** ** Definitions for the properties of the engine and its callers *)

(** A character of ["0123456789abcdef"]. *)
Definition is_hex_digit (c : ascii) : bool :=
  existsb (Ascii.eqb c) (String.list_ascii_of_string Engine.digits).

(** The orders that a sequence of engine calls submits, each with the id
    that [submit_order] gives it; [k] counts the draws consumed before. *)
Fixpoint submitted (dis : nat -> nat) (cs : list Engine.op) (k : nat) : list Order :=
  match cs with
  | [] => []
  | Engine.SubmitOrder x :: cs' =>
      Engine.with_id x (Engine.generate_order_id dis k).1
      :: submitted dis cs' (Engine.generate_order_id dis k).2
  | _ :: cs' => submitted dis cs' k
  end.

(** The callbacks that a sequence of engine calls leaves subscribed for
    symbol [s] on a channel, oldest first; [acc] are those before it. *)
Fixpoint market_data_subscribers (s : string) (cs : list Engine.op) (acc : list nat)
    : list nat :=
  match cs with
  | [] => acc
  | Engine.SubscribeMarketData s' cb :: cs' =>
      market_data_subscribers s cs' (if decide (s' = s) then acc ++ [cb] else acc)
  | Engine.UnsubscribeMarketData s' :: cs' =>
      market_data_subscribers s cs' (if decide (s' = s) then [] else acc)
  | _ :: cs' => market_data_subscribers s cs' acc
  end.

Fixpoint trade_subscribers (s : string) (cs : list Engine.op) (acc : list nat)
    : list nat :=
  match cs with
  | [] => acc
  | Engine.SubscribeTrades s' cb :: cs' =>
      trade_subscribers s cs' (if decide (s' = s) then acc ++ [cb] else acc)
  | Engine.UnsubscribeTrades s' :: cs' =>
      trade_subscribers s cs' (if decide (s' = s) then [] else acc)
  | _ :: cs' => trade_subscribers s cs' acc
  end.

(** The symbol a callback is called about. *)
Definition call_symbol (c : call) : string :=
  match c with
  | CallMarketData _ data => md_symbol data
  | CallTrade _ t => trade_symbol t
  end.

(** [o'] is the order [o] up to its remaining quantity. *)
Definition same_order (o' o : Order) : Prop :=
  order_id o' = order_id o /\ symbol o' = symbol o /\ price o' = price o /\
  is_buy o' = is_buy o.

(** Total quantity of the sell orders of a sequence of submissions. *)
Definition sell_volume (os : list Order) : Z :=
  foldr (fun x acc => if is_buy x then acc else quantity x + acc) 0 os.

(** ** The tick thread of the engine

    [start] and [stop] with the [std::thread] member: assigning a new
    thread to [market_data_thread] while it is joinable, and destroying
    it while it is joinable, call [std::terminate]. *)

Module Lifecycle.

Record threads := mkThreads {
  running : bool;
  joinable : bool
}.

Inductive result (A : Type) :=
  | Ok (a : A)
  | Terminate.
Arguments Ok {A} a.
Arguments Terminate {A}.

(** The members as [ExecutionEngine() = default] leaves them. *)
Definition new_threads : threads := mkThreads false false.

(** [ExecutionEngine::start] *)
Definition start (t : threads) : result threads :=
  if joinable t then Terminate else Ok (mkThreads true true).

(** [ExecutionEngine::stop]: [running.exchange(false)], and the [join]
    when the flag was set and the thread is joinable. *)
Definition stop (t : threads) : threads :=
  if running t && joinable t then mkThreads false false
  else mkThreads false (joinable t).

(** [ExecutionEngine::~ExecutionEngine]: [stop()], then the destructor
    of [market_data_thread]. *)
Definition destroy (t : threads) : result unit :=
  if joinable (stop t) then Terminate else Ok ().

(** A sequence of calls: [true] is [start], [false] is [stop]. *)
Fixpoint run (cs : list bool) (t : threads) : result threads :=
  match cs with
  | [] => Ok t
  | true :: cs' => match start t with Ok t' => run cs' t' | Terminate => Terminate end
  | false :: cs' => run cs' (stop t)
  end.

End Lifecycle.

(** ** The read queries of the engine with their mutexes

    A query takes [engine_mutex] and then calls the method of the book,
    whose [book_mutex] no one holds. *)

Module LockedEngine.

Definition get_position (s : string) (e : Engine.ExecutionEngine) : Locking.outcome Z :=
  match Engine.order_books e !! s with
  | Some bk => Locking.get_position false bk
  | None => Locking.Returns 0
  end.
Definition get_average_price (s : string) (e : Engine.ExecutionEngine)
    : Locking.outcome double :=
  match Engine.order_books e !! s with
  | Some bk => Locking.get_average_price false bk
  | None => Locking.Returns 0%float
  end.
Definition get_unrealized_pnl (s : string) (e : Engine.ExecutionEngine)
    : Locking.outcome double :=
  match Engine.order_books e !! s with
  | Some bk => Locking.get_unrealized_pnl false bk
  | None => Locking.Returns 0%float
  end.
Definition get_realized_pnl (s : string) (e : Engine.ExecutionEngine)
    : Locking.outcome double :=
  match Engine.order_books e !! s with
  | Some bk => Locking.get_realized_pnl false bk
  | None => Locking.Returns 0%float
  end.

End LockedEngine.

(** ** The OCaml wrapper of the subscriptions ([module ExecutionEngine]
    of the binding file)

    The wrapper keeps its own table of callbacks per symbol, newest
    first, and on every subscription registers with the engine one more
    closure, [fun data -> List.iter callbacks ~f:(fun cb -> cb data)],
    over the list as it is at that moment.  A closure is modelled by the
    list it iterates; the engine calls the closures of a symbol in the
    order of their registration. *)

Module Wrapper.

Record t := mkT {
  market_data_callbacks : gmap string (list nat);
  engine_closures : gmap string (list (list nat))
}.


(** [subscribe_market_data t symbol callback] *)
Definition subscribe_market_data (s : string) (cb : nat) (w : t) : t :=
  let callbacks :=
    match market_data_callbacks w !! s with
    | Some cbs => cb :: cbs
    | None => [cb]
    end in
  mkT (<[s := callbacks]> (market_data_callbacks w))
      (<[s := default [] (engine_closures w !! s) ++ [callbacks]]> (engine_closures w)).

(** [unsubscribe_market_data t symbol] *)
Definition unsubscribe_market_data (s : string) (w : t) : t :=
  mkT (delete s (market_data_callbacks w)) (delete s (engine_closures w)).


End Wrapper.

(** * Facts about the binary heap *)

Section heap_facts.
Context {A : Type} (comp : A -> A -> bool).
Implicit Types (c first : list A) (value x y : A).

Lemma push_heap_aux_length fuel first h top value :
    length (push_heap_aux comp fuel first h top value) = length first.
  Proof.
    revert first h. induction fuel as [|fuel IH]; intros first h; simpl.
    - by rewrite length_insert.
    - destruct (first !! _) as [p|]; [|by rewrite length_insert].
      destruct (_ && _); [|by rewrite length_insert].
      by rewrite IH, length_insert.
  Qed.

  (** The fuel of the two loops is enough: more of it changes nothing. *)
Lemma push_heap_aux_fuel n m first h top value :
  (h <= n)%nat -> (h <= m)%nat ->
  push_heap_aux comp n first h top value = push_heap_aux comp m first h top value.
Proof.
  revert m first h. induction n as [|n IH]; intros m first h Hn Hm.
  - assert (h = 0%nat) as -> by lia. destruct m as [|m]; [done|]. cbn [push_heap_aux].
    destruct (first !! _); [|done]. by rewrite (proj2 (Nat.ltb_ge top 0)) by lia.
  - destruct m as [|m]; cbn [push_heap_aux].
    + assert (h = 0%nat) as -> by lia.
      destruct (first !! _); [|done]. by rewrite (proj2 (Nat.ltb_ge top 0)) by lia.
    + destruct (first !! _) as [p|]; [|done].
      destruct (_ && _) eqn:Hc; [|done].
      apply andb_true_iff in Hc as [Hlt%Nat.ltb_lt _]. apply IH; lia.
Qed.

Lemma adjust_heap_loop_fuel n m first h len :
  (len <= n + h)%nat -> (len <= m + h)%nat ->
  adjust_heap_loop comp n first h len = adjust_heap_loop comp m first h len.
Proof.
  revert m first h. induction n as [|n IH]; intros m first h Hn Hm.
  - destruct m as [|m]; [done|]. cbn [adjust_heap_loop].
    by rewrite (proj2 (Nat.ltb_ge h ((len - 1) / 2))) by lia.
  - destruct m as [|m]; cbn [adjust_heap_loop].
    + by rewrite (proj2 (Nat.ltb_ge h ((len - 1) / 2))) by lia.
    + destruct (_ <? _)%nat; [|done].
      destruct (first !! (2 * (h + 1))%nat) as [r|]; [|done].
      destruct (first !! (2 * (h + 1) - 1)%nat) as [l|]; [|done].
      destruct (comp r l); apply IH; lia.
Qed.

(** The stale content of the hole is never read. *)
Lemma push_heap_aux_hole fuel first h top value x :
    push_heap_aux comp fuel (<[h := x]> first) h top value
    = push_heap_aux comp fuel first h top value.
  Proof.
    destruct fuel as [|fuel]; simpl; [by rewrite list_insert_insert_eq|].
    destruct (decide (h = 0%nat)) as [->|Hh].
    - by destruct first as [|a first].
    - assert (((h - 1) / 2)%nat ≠ h) by lia.
      rewrite list_lookup_insert_ne by done.
      destruct (first !! _) as [p|]; [|by rewrite list_insert_insert_eq].
      destruct (_ && _); by rewrite list_insert_insert_eq.
  Qed.

Lemma push_heap_aux_perm fuel first h top value :
    (h < length first)%nat ->
    push_heap_aux comp fuel first h top value ≡ₚ <[h := value]> first.
  Proof.
    revert first h. induction fuel as [|fuel IH]; intros first h Hh; simpl; [done|].
    destruct (first !! _) as [p|] eqn:Hp; [|done].
    destruct (_ && _) eqn:Hc; [|done].
    apply andb_true_iff in Hc as [Hlt%Nat.ltb_lt _].
    assert (((h - 1) / 2)%nat ≠ h) as Hne by lia.
    rewrite IH by (rewrite length_insert; by eapply lookup_lt_Some).
    rewrite <-(list_insert_insert_eq first h p value).
    apply Permutation_insert_swap.
    - by apply list_lookup_insert_eq.
    - by rewrite list_lookup_insert_ne.
  Qed.

(** Sifting a value up leaves on top the old top or that value, and the
    old top when it does not compare less than the value. *)
Lemma push_heap_aux_head fuel first h value t :
    head first = Some t ->
    let r := push_heap_aux comp fuel first h 0 value in
    (head r = Some value \/ head r = Some t) /\
    ((0 < h)%nat -> comp t value = false -> head r = Some t).
  Proof.
    assert (forall l (v : A) i, head l = Some t ->
              (head (<[i := v]> l) = Some v \/ head (<[i := v]> l) = Some t) /\
              ((0 < i)%nat -> head (<[i := v]> l) = Some t)) as Hins.
    { intros [|a l] v [|i] Hl; try done; cbn; split; auto; lia. }
    revert first h. induction fuel as [|fuel IH]; intros first h Ht; cbn [push_heap_aux].
    { destruct (Hins first value h Ht) as [H1 H2]. split; [done|]. intros Hh _. by apply H2. }
    destruct (first !! ((h - 1) / 2)%nat) as [p|] eqn:Hp.
    2:{ destruct (Hins first value h Ht) as [H1 H2]. split; [done|]. intros Hh _. by apply H2. }
    destruct ((0 <? h)%nat && comp p value) eqn:Hc.
    2:{ destruct (Hins first value h Ht) as [H1 H2]. split; [done|]. intros Hh _. by apply H2. }
    apply andb_true_iff in Hc as [Hlt%Nat.ltb_lt Hc].
    destruct (Hins first p h Ht) as [_ Hkeep].
    destruct (IH (<[h := p]> first) ((h - 1) / 2)%nat (Hkeep Hlt)) as [I1 I2].
    split; [done|]. intros _ Hno. apply I2; [|done].
    destruct (decide (((h - 1) / 2)%nat = 0%nat)) as [E|E]; [|lia].
    rewrite E in Hp. destruct first as [|a first]; [done|].
    cbn in Ht, Hp. congruence.
  Qed.

Lemma adjust_heap_loop_spec fuel first h len :
    (h < length first)%nat ->
    let r := adjust_heap_loop comp fuel first h len in
    length r.1 = length first /\ (h <= r.2 < length first)%nat /\
    forall value, <[r.2 := value]> r.1 ≡ₚ <[h := value]> first.
  Proof.
    revert first h. induction fuel as [|fuel IH]; intros first h Hh;
      cbn [adjust_heap_loop fst snd]; [by auto with lia|].
    destruct (_ <? _)%nat eqn:Hlt; cbn [fst snd]; [|by auto with lia].
    destruct (first !! (2 * (h + 1))%nat) as [r|] eqn:Hr; cbn [fst snd]; [|by auto with lia].
    destruct (first !! (2 * (h + 1) - 1)%nat) as [l|] eqn:Hl; cbn [fst snd]; [|by auto with lia].
    pose proof (lookup_lt_Some _ _ _ Hr). pose proof (lookup_lt_Some _ _ _ Hl).
    destruct (comp r l).
    - destruct (IH (<[h := l]> first) (2 * (h + 1) - 1)%nat) as (IH1 & IH2 & IH3);
        [by rewrite length_insert|].
      rewrite length_insert in IH1, IH2. split_and!; [done|lia|lia|].
      intros value. rewrite IH3.
      rewrite <-(list_insert_insert_eq first h l value).
      apply Permutation_insert_swap.
      + by apply list_lookup_insert_eq.
      + rewrite list_lookup_insert_ne by lia. done.
    - destruct (IH (<[h := r]> first) (2 * (h + 1))%nat) as (IH1 & IH2 & IH3);
        [by rewrite length_insert|].
      rewrite length_insert in IH1, IH2. split_and!; [done|lia|lia|].
      intros value. rewrite IH3.
      rewrite <-(list_insert_insert_eq first h r value).
      apply Permutation_insert_swap.
      + by apply list_lookup_insert_eq.
      + rewrite list_lookup_insert_ne by lia. done.
  Qed.

Lemma adjust_heap_last_spec first h len :
    (h < length first)%nat ->
    let r := adjust_heap_last first h len in
    length r.1 = length first /\ (h <= r.2 < length first)%nat /\
    forall value, <[r.2 := value]> r.1 ≡ₚ <[h := value]> first.
  Proof.
    intros Hh. unfold adjust_heap_last.
    destruct (_ && _); cbn [fst snd]; [|by auto with lia].
    destruct (first !! _) as [l|] eqn:Hl; cbn [fst snd]; [|by auto with lia].
    pose proof (lookup_lt_Some _ _ _ Hl).
    rewrite length_insert. split_and!; [done|lia|lia|].
    intros value. rewrite <-(list_insert_insert_eq first h l value).
    apply Permutation_insert_swap.
    - by apply list_lookup_insert_eq.
    - rewrite list_lookup_insert_ne by lia. done.
  Qed.

Lemma adjust_heap_perm first h len value :
    (h < length first)%nat ->
    adjust_heap comp first h len value ≡ₚ <[h := value]> first.
  Proof.
    intros Hh. unfold adjust_heap.
    pose proof (adjust_heap_loop_spec len first h len Hh) as (L1 & B1 & P1).
    destruct (adjust_heap_loop comp len first h len) as [first1 hole1]; simpl in *.
    assert (hole1 < length first1)%nat as Hh1 by lia.
    pose proof (adjust_heap_last_spec first1 hole1 len Hh1) as (L2 & B2 & P2).
    destruct (adjust_heap_last first1 hole1 len) as [first2 hole2]; simpl in *.
    rewrite push_heap_aux_perm by lia. by rewrite P2, P1.
  Qed.

Lemma adjust_heap_length first h len value :
    (h < length first)%nat ->
    length (adjust_heap comp first h len value) = length first.
  Proof.
    intros Hh. rewrite (Permutation_length (adjust_heap_perm first h len value Hh)).
    by rewrite length_insert.
  Qed.
End heap_facts.

Section heap_order.
Context {A : Type} (comp : A -> A -> bool) (D : A -> Prop).
Implicit Types (c first : list A) (value x y : A).

  (** [comp] is a strict weak ordering on the elements that satisfy [D]. *)
Hypothesis comp_asym : forall x y, D x -> D y -> comp x y = true -> comp y x = false.
Hypothesis comp_trans : forall x y z, D x -> D y -> D z ->
    comp x y = true -> comp y z = true -> comp x z = true.
Hypothesis comp_ntrans : forall x y z, D x -> D y -> D z ->
    comp x y = false -> comp y z = false -> comp x z = false.

Lemma comp_irrefl x : D x -> comp x x = false.
  Proof. intros Hx. destruct (comp x x) eqn:E; [|done]. by rewrite (comp_asym x x) in E. Qed.

Lemma comp_mixed x y z : D x -> D y -> D z ->
    comp x y = true -> comp x z = false -> comp y z = false.
  Proof.
    intros Hx Hy Hz Hxy Hxz. destruct (comp y z) eqn:E; [|done].
    by rewrite (comp_trans x y z) in Hxz.
  Qed.

Lemma push_heap_aux_heap fuel first h value :
    (h <= fuel)%nat -> Forall D first -> first !! h = Some value ->
    (forall i x y, (0 < i)%nat -> i ≠ h ->
       first !! ((i - 1) / 2)%nat = Some x -> first !! i = Some y -> comp x y = false) ->
    (forall i x y, (0 < h)%nat -> (0 < i)%nat -> ((i - 1) / 2)%nat = h ->
       first !! ((h - 1) / 2)%nat = Some x -> first !! i = Some y -> comp x y = false) ->
    is_heap comp (push_heap_aux comp fuel first h 0 value).
  Proof.
    revert first h. induction fuel as [|fuel IH]; intros first h Hf HD Hv Ha Hb.
    { cbn [push_heap_aux]. rewrite list_insert_id by done.
      intros i x y Hi. apply Ha; [done|lia]. }
    cbn [push_heap_aux].
    assert (is_heap comp first \/
      exists p, first !! ((h - 1) / 2)%nat = Some p /\ (0 < h)%nat /\ comp p value = true)
      as [Hheap|(p & Hp & Hh & Hc)].
    { destruct (first !! ((h - 1) / 2)%nat) as [p|] eqn:Hp.
      - destruct (decide (0 < h)%nat) as [Hh|Hh]; [destruct (comp p value) eqn:Hc|].
        + right. by exists p.
        + left. intros i x y Hi Hx Hy. destruct (decide (i = h)) as [->|Hne]; [|by eapply Ha].
          by simplify_eq.
        + left. intros i x y Hi. apply Ha; [done|lia].
      - left. intros i x y Hi Hx Hy. destruct (decide (i = h)) as [->|Hne]; [|by eapply Ha].
        by simplify_eq. }
    { destruct (first !! ((h - 1) / 2)%nat) as [p|] eqn:Hp; [|by rewrite list_insert_id].
      destruct ((0 <? h)%nat && comp p value) eqn:Hc; [|by rewrite list_insert_id].
      apply andb_true_iff in Hc as [Hlt%Nat.ltb_lt Hc].
      exfalso. specialize (Hheap h p value Hlt Hp Hv). congruence. }
    rewrite Hp. replace ((0 <? h)%nat && comp p value) with true
      by (symmetry; apply andb_true_iff; split; [by apply Nat.ltb_lt|done]).
    set (parent := ((h - 1) / 2)%nat) in *.
    assert (parent < h)%nat as Hph by (unfold parent; lia).
    pose proof (lookup_lt_Some _ _ _ Hp) as Hplen.
    pose proof (lookup_lt_Some _ _ _ Hv) as Hhlen.
    assert (D value) as Dv by (by eapply (Forall_lookup_1 D first h)).
    assert (D p) as Dp by (by eapply (Forall_lookup_1 D first parent)).
    rewrite <-(push_heap_aux_hole comp fuel (<[h:=p]> first) parent 0 value value).
    set (first' := <[parent:=value]> (<[h:=p]> first)).
    assert (forall j, first' !! j =
      if decide (j = parent) then Some value
      else if decide (j = h) then Some p else first !! j) as Hlk.
    { intros j. unfold first'. repeat case_decide; subst.
      - rewrite list_lookup_insert_eq; [done|by rewrite length_insert].
      - rewrite list_lookup_insert_ne by lia. by rewrite list_lookup_insert_eq.
      - by rewrite !list_lookup_insert_ne by done. }
    assert (Forall D first') as HD'.
    { unfold first'. by repeat apply Forall_insert. }
    assert (forall j z, first !! j = Some z -> D z) as HDl.
    { intros j z Hz. by eapply (Forall_lookup_1 D first j). }
    apply IH; [lia|done|by rewrite Hlk, decide_True| |].
    - intros i x y Hi Hne. rewrite !Hlk. rewrite (decide_False (P := i = parent)) by done.
      destruct (decide (i = h)) as [->|Hih].
      + fold parent. rewrite decide_True by done. intros [= <-] [= <-].
        by apply comp_asym.
      + destruct (decide (((i - 1) / 2)%nat = parent)) as [Hip|Hip].
        * intros [= <-] Hy.
          apply (comp_mixed p); eauto.
          eapply (Ha i); [done|done| |done]. by rewrite Hip.
        * destruct (decide (((i - 1) / 2)%nat = h)) as [Hi2|Hi2].
          -- intros [= <-] Hy. by eapply (Hb i).
          -- intros Hx Hy. by eapply (Ha i).
    - intros i x y Hpar Hi Hip. rewrite !Hlk.
      assert (((parent - 1) / 2)%nat ≠ parent) as Hpp by lia.
      assert (((parent - 1) / 2)%nat ≠ h) as Hpp' by lia.
      rewrite (decide_False (P := (parent - 1)/2 = parent)%nat) by done.
      rewrite (decide_False (P := (parent - 1)/2 = h)%nat) by done.
      rewrite (decide_False (P := i = parent)) by lia.
      intros Hx. destruct (decide (i = h)) as [->|Hih].
      + intros [= <-]. eapply (Ha parent); [done|lia|done|done].
      + intros Hy. apply (comp_ntrans x p y); eauto.
        * eapply (Ha parent); [done|lia|done|done].
        * eapply (Ha i); [done|done| |done]. by rewrite Hip.
  Qed.

Lemma push_heap_heap c x :
    Forall D c -> D x -> is_heap comp c -> is_heap comp (pq_push comp x c).
  Proof.
    intros HD Hx Hc. unfold pq_push, push_heap.
    rewrite length_app, Nat.add_sub. cbn [length].
    rewrite (lookup_app_r c [x] (length c)), Nat.sub_diag by lia. cbn [lookup list_lookup].
    apply push_heap_aux_heap.
    - lia.
    - apply Forall_app; split; [done|by constructor].
    - by rewrite lookup_app_r, Nat.sub_diag by lia.
    - intros i a b Hi Hne Ha Hb.
      assert (i < length c)%nat as Hlt.
      { apply lookup_lt_Some in Hb. rewrite length_app in Hb. simpl in Hb. lia. }
      rewrite lookup_app_l in Ha, Hb by lia. by eapply Hc.
    - intros i a b Hh Hi Hp _ Hb.
      apply lookup_lt_Some in Hb. rewrite length_app in Hb. simpl in Hb. lia.
  Qed.

  (** Pulling the better child into the hole keeps the heap property. *)
Lemma pull_child_heap first h ci cv :
    Forall D first -> is_heap comp first ->
    ((ci - 1) / 2)%nat = h -> (0 < ci)%nat -> first !! ci = Some cv ->
    (forall i y, (0 < i)%nat -> ((i - 1) / 2)%nat = h -> first !! i = Some y ->
       comp cv y = false) ->
    is_heap comp (<[h := cv]> first) /\ Forall D (<[h := cv]> first).
  Proof.
    intros HD Hheap Hci Hpos Hcv Hbest.
    assert (forall j z, first !! j = Some z -> D z) as HDl.
    { intros j z Hz. by eapply (Forall_lookup_1 D first j). }
    split; [|apply Forall_insert; eauto].
    assert (h < length first)%nat as Hh by (apply lookup_lt_Some in Hcv; lia).
    destruct (lookup_lt_is_Some_2 first h Hh) as [hv Hhv].
    intros i x y Hi Hx Hy.
    destruct (decide (i = h)) as [->|Hih].
    - rewrite list_lookup_insert_eq in Hy by done. injection Hy as <-.
      rewrite list_lookup_insert_ne in Hx by lia.
      apply (comp_ntrans x hv cv); eauto.
      eapply (Hheap ci); [done| |done]. by rewrite Hci.
    - rewrite list_lookup_insert_ne in Hy by done.
      destruct (decide (((i - 1) / 2)%nat = h)) as [Hip|Hip].
      + rewrite Hip, list_lookup_insert_eq in Hx by done. injection Hx as <-.
        by eapply Hbest.
      + rewrite list_lookup_insert_ne in Hx by done. by eapply Hheap.
  Qed.

Lemma adjust_heap_loop_heap fuel first h :
    Forall D first -> is_heap comp first -> (h < length first)%nat ->
    let r := adjust_heap_loop comp fuel first h (length first) in
    is_heap comp r.1 /\ Forall D r.1 /\
    ((length first <= fuel + h)%nat -> ((length first - 1) / 2 <= r.2)%nat).
  Proof.
    revert first h. induction fuel as [|fuel IH]; intros first h HD Hheap Hh;
      cbn [adjust_heap_loop fst snd]; [split_and!; [done|done|lia]|].
    assert (forall j z, first !! j = Some z -> D z) as HDl.
    { intros j z Hz. by eapply (Forall_lookup_1 D first j). }
    destruct (_ <? _)%nat eqn:Hlt; cbn [fst snd].
    2:{ apply Nat.ltb_ge in Hlt. split_and!; [done|done|lia]. }
    apply Nat.ltb_lt in Hlt.
    destruct (lookup_lt_is_Some_2 first (2 * (h + 1))%nat) as [r Hr]; [lia|].
    destruct (lookup_lt_is_Some_2 first (2 * (h + 1) - 1)%nat) as [l Hl]; [lia|].
    rewrite Hr, Hl. destruct (comp r l) eqn:Hc.
    - destruct (pull_child_heap first h (2 * (h + 1) - 1)%nat l) as [H1 H2];
        [done|done|lia|lia|done| |].
      { intros i y Hi Hip Hy.
        assert (i = (2 * (h + 1) - 1)%nat \/ i = (2 * (h + 1))%nat) as [->| ->] by lia.
        - rewrite Hl in Hy. injection Hy as <-. apply comp_irrefl; eauto.
        - rewrite Hr in Hy. injection Hy as <-. apply comp_asym; eauto. }
      specialize (IH (<[h:=l]> first) (2 * (h + 1) - 1)%nat H2 H1).
      rewrite length_insert in IH. destruct IH as (I1 & I2 & I3); [lia|].
      split_and!; [done|done|]. intros ?. apply I3. lia.
    - destruct (pull_child_heap first h (2 * (h + 1))%nat r) as [H1 H2];
        [done|done|lia|lia|done| |].
      { intros i y Hi Hip Hy.
        assert (i = (2 * (h + 1) - 1)%nat \/ i = (2 * (h + 1))%nat) as [->| ->] by lia.
        - rewrite Hl in Hy. by injection Hy as <-.
        - rewrite Hr in Hy. injection Hy as <-. apply comp_irrefl; eauto. }
      specialize (IH (<[h:=r]> first) (2 * (h + 1))%nat H2 H1).
      rewrite length_insert in IH. destruct IH as (I1 & I2 & I3); [lia|].
      split_and!; [done|done|]. intros ?. apply I3. lia.
  Qed.

Lemma adjust_heap_last_heap first h :
    Forall D first -> is_heap comp first -> (h < length first)%nat ->
    ((length first - 1) / 2 <= h)%nat ->
    let r := adjust_heap_last first h (length first) in
    is_heap comp r.1 /\ Forall D r.1 /\ (length first <= 2 * r.2 + 1)%nat.
  Proof.
    intros HD Hheap Hh Hge. unfold adjust_heap_last.
    assert (forall j z, first !! j = Some z -> D z) as HDl.
    { intros j z Hz. by eapply (Forall_lookup_1 D first j). }
    destruct (Nat.even (length first)) eqn:Hev; cbn [andb].
    - apply Nat.even_spec in Hev as [k Hk].
      destruct (_ =? _)%nat eqn:Heq; cbn [fst snd].
      + apply Nat.eqb_eq in Heq.
        destruct (lookup_lt_is_Some_2 first (2 * (h + 1) - 1)%nat) as [l Hl]; [lia|].
        rewrite Hl; cbn [fst snd].
        destruct (pull_child_heap first h (2 * (h + 1) - 1)%nat l) as [H1 H2];
          [done|done|lia|lia|done| |].
        { intros i y Hi Hip Hy. pose proof (lookup_lt_Some _ _ _ Hy).
          assert (i = (2 * (h + 1) - 1)%nat) as -> by lia.
          rewrite Hl in Hy. injection Hy as <-. apply comp_irrefl; eauto. }
        split_and!; [done|done|lia].
      + apply Nat.eqb_neq in Heq. split_and!; [done|done|lia].
    - cbn [fst snd]. split_and!; [done|done|].
      rewrite <-Nat.negb_odd in Hev. apply negb_false_iff, Nat.odd_spec in Hev as [k Hk]. lia.
  Qed.

Lemma adjust_heap_heap first value :
    Forall D first -> D value -> is_heap comp first -> first ≠ [] ->
    is_heap comp (adjust_heap comp first 0 (length first) value).
  Proof.
    intros HD Hv Hheap Hne. unfold adjust_heap.
    assert (0 < length first)%nat as Hlen by (destruct first; [done|simpl; lia]).
    pose proof (adjust_heap_loop_heap (length first) first 0 HD Hheap Hlen) as (H1 & D1 & G1).
    pose proof (adjust_heap_loop_spec comp (length first) first 0 (length first) Hlen)
      as (L1 & B1 & _).
    destruct (adjust_heap_loop comp (length first) first 0 (length first))
      as [first1 hole1]; cbn [fst snd] in *.
    rewrite <-L1 in *.
    pose proof (adjust_heap_last_heap first1 hole1 D1 H1 (proj2 B1) (G1 ltac:(lia)))
      as (H2 & D2 & G2).
    pose proof (adjust_heap_last_spec comp first1 hole1 (length first1) (proj2 B1))
      as (L2 & B2 & _).
    destruct (adjust_heap_last first1 hole1 (length first1)) as [first2 hole2];
      cbn [fst snd] in *.
    rewrite <-(push_heap_aux_hole comp hole2 first2 hole2 0 value value).
    apply push_heap_aux_heap.
    - done.
    - by apply Forall_insert.
    - apply list_lookup_insert_eq. lia.
    - intros i x y Hi Hne' Hx Hy.
      rewrite list_lookup_insert_ne in Hy by done.
      pose proof (lookup_lt_Some _ _ _ Hy).
      rewrite list_lookup_insert_ne in Hx by lia. by eapply H2.
    - intros i x y Hh Hi Hip _ Hy. apply lookup_lt_Some in Hy.
      rewrite length_insert in Hy. lia.
  Qed.

  (** The top of a heap is not less than any element. *)
Lemma heap_top_max c t :
    Forall D c -> is_heap comp c -> c !! 0%nat = Some t ->
    forall x, x ∈ c -> comp t x = false.
  Proof.
    intros HD Hheap Ht x [i Hx]%list_elem_of_lookup.
    assert (forall j z, c !! j = Some z -> D z) as HDl.
    { intros j z Hz. by eapply (Forall_lookup_1 D c j). }
    revert x Hx. induction i as [i IH] using lt_wf_ind. intros x Hx.
    destruct (decide (i = 0%nat)) as [->|Hi].
    - rewrite Ht in Hx. injection Hx as <-. apply comp_irrefl; eauto.
    - destruct (lookup_lt_is_Some_2 c ((i - 1) / 2)%nat) as [p Hp].
      { apply lookup_lt_Some in Hx. lia. }
      apply (comp_ntrans t p x); eauto.
      + apply (IH ((i - 1) / 2)%nat); [lia|done].
      + eapply (Hheap i); [lia|done|done].
  Qed.
End heap_order.

(** [pop_heap] works on the first [len] slots only; the last slot, which
    receives the old top, is dropped by [pop_back]. *)
Section heap_pop.
Context {A : Type} (comp : A -> A -> bool).
Implicit Types (c : list A) (value x y : A).

Lemma push_heap_aux_app fuel (l1 l2 : list A) h top value :
    (h < length l1)%nat ->
    push_heap_aux comp fuel (l1 ++ l2) h top value
    = push_heap_aux comp fuel l1 h top value ++ l2.
  Proof.
    revert l1 h. induction fuel as [|fuel IH]; intros l1 h Hh; cbn [push_heap_aux].
    - by rewrite insert_app_l.
    - rewrite lookup_app_l by lia.
      destruct (l1 !! _) as [p|]; [|by rewrite insert_app_l].
      destruct (_ && _) eqn:Hc; [|by rewrite insert_app_l].
      rewrite insert_app_l by done. apply IH. rewrite length_insert. lia.
  Qed.

Lemma adjust_heap_loop_app fuel (l1 l2 : list A) h len :
    (h < length l1)%nat -> len = length l1 ->
    adjust_heap_loop comp fuel (l1 ++ l2) h len
    = ((adjust_heap_loop comp fuel l1 h len).1 ++ l2, (adjust_heap_loop comp fuel l1 h len).2).
  Proof.
    revert l1 h. induction fuel as [|fuel IH]; intros l1 h Hh Hlen;
      cbn [adjust_heap_loop fst snd]; [done|].
    destruct (_ <? _)%nat eqn:Hlt; [|done]. apply Nat.ltb_lt in Hlt.
    rewrite !lookup_app_l by lia.
    destruct (l1 !! (2 * (h + 1))%nat) as [r|] eqn:Hr; [|done].
    destruct (l1 !! (2 * (h + 1) - 1)%nat) as [l|]; [|done].
    apply lookup_lt_Some in Hr.
    destruct (comp r l); rewrite insert_app_l by done;
      apply IH; rewrite length_insert; lia.
  Qed.

Lemma adjust_heap_last_app (l1 l2 : list A) h len :
    (h < length l1)%nat -> len = length l1 ->
    adjust_heap_last (l1 ++ l2) h len
    = ((adjust_heap_last l1 h len).1 ++ l2, (adjust_heap_last l1 h len).2).
  Proof.
    intros Hh Hlen. unfold adjust_heap_last.
    destruct (Nat.even len) eqn:Hev; [|done]. cbn [andb].
    destruct (_ =? _)%nat eqn:Heq; [|done].
    apply Nat.eqb_eq in Heq. apply Nat.even_spec in Hev as [k Hk].
    rewrite lookup_app_l by lia.
    destruct (l1 !! _) as [l|]; [|done]. cbn [fst snd]. by rewrite insert_app_l.
  Qed.

Lemma adjust_heap_app (l1 l2 : list A) h value :
    (h < length l1)%nat ->
    adjust_heap comp (l1 ++ l2) h (length l1) value
    = adjust_heap comp l1 h (length l1) value ++ l2.
  Proof.
    intros Hh. unfold adjust_heap.
    rewrite adjust_heap_loop_app by done.
    pose proof (adjust_heap_loop_spec comp (length l1) l1 h (length l1) Hh) as (L1 & B1 & _).
    destruct (adjust_heap_loop comp (length l1) l1 h (length l1)) as [first1 hole1];
      cbn [fst snd] in *.
    rewrite adjust_heap_last_app by lia.
    pose proof (adjust_heap_last_spec comp first1 hole1 (length l1) ltac:(lia)) as (L2 & B2 & _).
    destruct (adjust_heap_last first1 hole1 (length l1)) as [first2 hole2];
      cbn [fst snd] in *.
    apply push_heap_aux_app. lia.
  Qed.

  (** [pop] on a queue of at least two elements. *)
Lemma pq_pop_snoc t c value :
    pq_pop comp (t :: c ++ [value]) = adjust_heap comp (t :: c) 0 (S (length c)) value.
  Proof.
    unfold pq_pop, pop_heap. cbn [length]. rewrite length_app. cbn [length].
    replace (1 <? S (length c + 1))%nat with true by (symmetry; apply Nat.ltb_lt; lia).
    replace (S (length c + 1) - 1)%nat with (length (t :: c)) by (simpl; lia).
    rewrite (lookup_app_r (t :: c) [value]), Nat.sub_diag by done.
    cbn [lookup list_lookup app].
    change (t :: c ++ [value]) with ((t :: c) ++ [value]).
    rewrite insert_app_r_alt, Nat.sub_diag by done. cbn [insert list_insert].
    rewrite adjust_heap_app by (simpl; lia).
    by rewrite removelast_last.
  Qed.

Lemma pq_pop_singleton t : pq_pop comp [t] = [].
  Proof. done. Qed.

Lemma pq_pop_perm t c : pq_pop comp (t :: c) ≡ₚ c.
  Proof.
    destruct c as [|x c _] using rev_ind; [done|].
    rewrite pq_pop_snoc, adjust_heap_perm by (simpl; lia).
    cbn [insert list_insert]. by rewrite Permutation_cons_append.
  Qed.

Lemma pq_pop_length c : length (pq_pop comp c) = (length c - 1)%nat.
  Proof.
    destruct c as [|t c]; [done|].
    rewrite (Permutation_length (pq_pop_perm t c)). simpl. lia.
  Qed.

Lemma pq_push_perm x c : pq_push comp x c ≡ₚ x :: c.
  Proof.
    unfold pq_push, push_heap. rewrite length_app, Nat.add_sub. cbn [length].
    rewrite (lookup_app_r c [x] (length c)), Nat.sub_diag by lia. cbn [lookup list_lookup].
    rewrite push_heap_aux_perm by (rewrite length_app; simpl; lia).
    rewrite list_insert_id by (by rewrite lookup_app_r, Nat.sub_diag by lia).
    symmetry. apply Permutation_cons_append.
  Qed.

Lemma pq_push_length x c : length (pq_push comp x c) = S (length c).
  Proof. by rewrite (Permutation_length (pq_push_perm x c)). Qed.

  (** The top after a [push] is the pushed value or the top before, and
      the top before when it does not compare less than the value. *)
Lemma pq_push_top x c :
    (pq_top (pq_push comp x c) = Some x \/ pq_top (pq_push comp x c) = pq_top c) /\
    (forall t, pq_top c = Some t -> comp t x = false -> pq_top (pq_push comp x c) = Some t).
  Proof.
    destruct c as [|t c]; [split; [by left|done]|].
    unfold pq_push, push_heap, pq_top. rewrite length_app, Nat.add_sub. cbn [length].
    rewrite (lookup_app_r (t :: c) [x] (S (length c))), Nat.sub_diag by (simpl; lia).
    cbn [lookup list_lookup].
    destruct (push_heap_aux_head comp (S (length c)) ((t :: c) ++ [x]) (S (length c)) x t eq_refl)
      as [H1 H2].
    split; [done|]. intros t' [= <-] Hc. apply H2; [lia|done].
  Qed.

Lemma is_heap_prefix (l1 l2 : list A) : is_heap comp (l1 ++ l2) -> is_heap comp l1.
  Proof.
    intros H i x y Hi Hx Hy. apply (H i x y Hi); by apply lookup_app_l_Some.
  Qed.

  (** Replacing the top by an element that compares alike keeps the heap. *)
Lemma is_heap_replace_top t t' c :
    (forall y, comp t' y = comp t y) ->
    is_heap comp (t :: c) -> is_heap comp (<[0%nat := t']> (t :: c)).
  Proof.
    intros Heq H i x y Hi Hx Hy. cbn [insert list_insert] in *.
    destruct i as [|i]; [lia|]. cbn [lookup list_lookup] in Hy.
    destruct (decide (((S i - 1) / 2)%nat = 0%nat)) as [E|E].
    - rewrite E in Hx. injection Hx as <-. rewrite Heq.
      apply (H (S i) t y Hi); [by rewrite E|done].
    - apply (H (S i) x y Hi); [|done].
      destruct ((S i - 1) / 2)%nat; [done|done].
  Qed.
End heap_pop.

Lemma pq_pop_heap {A} (comp : A -> A -> bool) (D : A -> Prop) (c : list A) :
  (forall x y, D x -> D y -> comp x y = true -> comp y x = false) ->
  (forall x y z, D x -> D y -> D z -> comp x y = true -> comp y z = true -> comp x z = true) ->
  (forall x y z, D x -> D y -> D z -> comp x y = false -> comp y z = false -> comp x z = false) ->
  Forall D c -> is_heap comp c -> is_heap comp (pq_pop comp c).
Proof.
  intros H1 H2 H3 HD Hheap.
  destruct c as [|t c]; [done|].
  destruct c as [|x c _] using rev_ind; [by intros i ? ? ? ?|].
  rewrite pq_pop_snoc.
  change (t :: c ++ [x]) with ((t :: c) ++ [x]) in *.
  apply Forall_app in HD as [HD Hx]. rewrite Forall_singleton in Hx.
  apply (adjust_heap_heap comp D H1 H2 H3 (t :: c) x); [done|done| |done].
  by eapply is_heap_prefix.
Qed.

(** * Comparison of [double]

    [<] and [<=] on the binary64 numbers, from their specification
    [SFcompare]: a strict order and its reflexive closure on the numbers
    that are not NaN, total there, and false wherever a NaN is compared. *)

Ltac sf_cases :=
  repeat match goal with
  | x : spec_float |- _ => destruct x as [[]|[]| |[] ? ?]
  end; cbn [SFcompare]; try (intros; congruence).

Ltac cmp_cases :=
  repeat match goal with
  | |- context [Z.compare ?a ?b] => destruct (Z.compare_spec a b)
  | |- context [Pos.compare_cont Eq ?a ?b] =>
      change (Pos.compare_cont Eq a b) with (Pos.compare a b); destruct (Pos.compare_spec a b)
  end; cbn [CompOpp]; try (intros; congruence); try (intros; lia).

Lemma SFcompare_lt_trans a b c :
  SFcompare a b = Some Lt -> SFcompare b c = Some Lt -> SFcompare a c = Some Lt.
Proof. sf_cases; cmp_cases. Qed.

Lemma SFcompare_eq_lt a b c :
  SFcompare a b = Some Eq -> SFcompare b c = Some Lt -> SFcompare a c = Some Lt.
Proof. sf_cases; cmp_cases. Qed.

Lemma SFcompare_lt_eq a b c :
  SFcompare a b = Some Lt -> SFcompare b c = Some Eq -> SFcompare a c = Some Lt.
Proof. sf_cases; cmp_cases. Qed.

Lemma SFcompare_eq_trans a b c :
  SFcompare a b = Some Eq -> SFcompare b c = Some Eq -> SFcompare a c = Some Eq.
Proof. sf_cases; cmp_cases. Qed.

Lemma SFcompare_swap a b :
  SFcompare b a = CompOpp <$> SFcompare a b.
Proof.
  destruct a as [[]|[]| |[] m e], b as [[]|[]| |[] m' e']; cbn [SFcompare];
    cbn [fmap option_fmap option_map]; try done; f_equal;
  rewrite (Z.compare_antisym e e');
  change (Pos.compare_cont Eq m' m) with (Pos.compare m' m);
  change (Pos.compare_cont Eq m m') with (Pos.compare m m');
  rewrite (Pos.compare_antisym m m'); by destruct (e ?= e'), (m ?= m')%positive.
Qed.

Lemma SFcompare_refl a : a <> S754_nan -> SFcompare a a = Some Eq.
Proof.
  destruct a as [[]|[]| |[] m e]; cbn [SFcompare]; try done;
  intros _; rewrite Z.compare_refl;
  change (Pos.compare_cont Eq m m) with (Pos.compare m m); by rewrite Pos.compare_refl.
Qed.

Lemma SFcompare_None a b : SFcompare a b = None <-> a = S754_nan \/ b = S754_nan.
Proof.
  destruct a as [[]|[]| |[] m e], b as [[]|[]| |[] m' e']; cbn [SFcompare];
    split; try done; try (intros [|]; done); auto.
Qed.

Lemma double_ltb_cmp a b : (a <? b)%float = true <-> cmp a b = Some Lt.
Proof.
  rewrite FloatAxioms.ltb_spec. unfold SFltb, cmp.
  destruct (SFcompare _ _) as [[]|]; split; congruence.
Qed.

Lemma double_leb_cmp a b : (a <=? b)%float = true <-> cmp a b = Some Lt \/ cmp a b = Some Eq.
Proof.
  rewrite FloatAxioms.leb_spec. unfold SFleb, cmp.
  destruct (SFcompare _ _) as [[]|]; split; try congruence; auto; intros [|]; congruence.
Qed.

Lemma double_is_nan_cmp a : PrimFloat.is_nan a = false <-> Prim2SF a <> S754_nan.
Proof.
  unfold PrimFloat.is_nan. rewrite negb_false_iff, FloatAxioms.eqb_spec. unfold SFeqb.
  split.
  - intros H E. rewrite E in H. done.
  - intros H. by rewrite SFcompare_refl.
Qed.

Lemma cmp_total a b :
  PrimFloat.is_nan a = false -> PrimFloat.is_nan b = false ->
  cmp a b = Some Lt \/ cmp a b = Some Eq \/ cmp a b = Some Gt.
Proof.
  rewrite !double_is_nan_cmp. intros Ha Hb. unfold cmp.
  destruct (SFcompare (Prim2SF a) (Prim2SF b)) as [[]|] eqn:E; auto.
  apply SFcompare_None in E as [|]; done.
Qed.

Lemma cmp_swap a b : cmp b a = CompOpp <$> cmp a b.
Proof. apply SFcompare_swap. Qed.

Lemma double_ltb_trans a b c :
  (a <? b)%float = true -> (b <? c)%float = true -> (a <? c)%float = true.
Proof. rewrite !double_ltb_cmp. apply SFcompare_lt_trans. Qed.

Lemma double_ltb_asym a b : (a <? b)%float = true -> (b <? a)%float = false.
Proof.
  rewrite double_ltb_cmp. intros H. apply not_true_is_false. rewrite double_ltb_cmp.
  rewrite cmp_swap, H. done.
Qed.

Lemma double_ltb_leb a b : (a <? b)%float = true -> (a <=? b)%float = true.
Proof. rewrite double_ltb_cmp, double_leb_cmp. auto. Qed.

Lemma double_ltb_not_leb a b : (a <? b)%float = true -> (b <=? a)%float = false.
Proof.
  rewrite double_ltb_cmp. intros H. apply not_true_is_false. rewrite double_leb_cmp.
  rewrite cmp_swap, H. intros [|]; done.
Qed.

Lemma double_leb_not_ltb a b : (a <=? b)%float = true -> (b <? a)%float = false.
Proof.
  intros H. destruct (b <? a)%float eqn:E; [|done].
  by rewrite (double_ltb_not_leb b a) in H.
Qed.

Lemma double_not_ltb_leb a b :
  PrimFloat.is_nan a = false -> PrimFloat.is_nan b = false ->
  (a <? b)%float = false -> (b <=? a)%float = true.
Proof.
  intros Ha Hb H. apply double_leb_cmp. rewrite cmp_swap.
  destruct (cmp_total a b Ha Hb) as [E|[E|E]]; rewrite E; cbn; auto.
  apply double_ltb_cmp in E. congruence.
Qed.

Lemma double_not_leb_ltb a b :
  PrimFloat.is_nan a = false -> PrimFloat.is_nan b = false ->
  (a <=? b)%float = false -> (b <? a)%float = true.
Proof.
  intros Ha Hb H. apply double_ltb_cmp. rewrite cmp_swap.
  destruct (cmp_total a b Ha Hb) as [E|[E|E]]; rewrite E; cbn; auto.
  - assert ((a <=? b)%float = true) by (apply double_leb_cmp; auto). congruence.
  - assert ((a <=? b)%float = true) by (apply double_leb_cmp; auto). congruence.
Qed.

Lemma double_leb_trans a b c :
  (a <=? b)%float = true -> (b <=? c)%float = true -> (a <=? c)%float = true.
Proof.
  rewrite !double_leb_cmp. unfold cmp.
  intros [H1|H1] [H2|H2]; eauto using SFcompare_lt_trans, SFcompare_eq_lt,
    SFcompare_lt_eq, SFcompare_eq_trans.
Qed.

Lemma double_leb_ltb_trans a b c :
  (a <=? b)%float = true -> (b <? c)%float = true -> (a <? c)%float = true.
Proof.
  rewrite double_leb_cmp, !double_ltb_cmp. unfold cmp.
  intros [H1|H1] H2; eauto using SFcompare_lt_trans, SFcompare_eq_lt.
Qed.

Lemma double_ltb_leb_trans a b c :
  (a <? b)%float = true -> (b <=? c)%float = true -> (a <? c)%float = true.
Proof.
  rewrite double_leb_cmp, !double_ltb_cmp. unfold cmp.
  intros H1 [H2|H2]; eauto using SFcompare_lt_trans, SFcompare_lt_eq.
Qed.

Lemma double_leb_is_nan a b :
  (a <=? b)%float = true -> PrimFloat.is_nan a = false /\ PrimFloat.is_nan b = false.
Proof.
  rewrite double_leb_cmp, !double_is_nan_cmp. unfold cmp. intros H.
  split; intros E;
    assert (SFcompare (Prim2SF a) (Prim2SF b) = None) as N by (apply SFcompare_None; auto);
    destruct H; congruence.
Qed.

(** Every comparison with NaN is false. *)
Lemma double_nan_leb a b :
  PrimFloat.is_nan a = true \/ PrimFloat.is_nan b = true -> (a <=? b)%float = false.
Proof.
  intros H. destruct (a <=? b)%float eqn:E; [|done].
  apply double_leb_is_nan in E as [? ?]. destruct H; congruence.
Qed.

Lemma double_nan_ltb a b :
  PrimFloat.is_nan a = true \/ PrimFloat.is_nan b = true -> (a <? b)%float = false.
Proof.
  intros H. destruct (a <? b)%float eqn:E; [|done].
  apply double_ltb_leb in E. by rewrite double_nan_leb in E.
Qed.

Lemma double_ltb_ntrans a b c :
  PrimFloat.is_nan a = false -> PrimFloat.is_nan b = false -> PrimFloat.is_nan c = false ->
  (a <? b)%float = false -> (b <? c)%float = false -> (a <? c)%float = false.
Proof.
  intros Ha Hb Hc H1 H2. apply double_leb_not_ltb.
  apply (double_leb_trans c b a); by apply double_not_ltb_leb.
Qed.

(** * The order book *)

(** On one side of the book [OrderCompare] is a strict weak ordering of
    the orders with a price: by price for buys, by reversed price for
    sells. *)
Lemma OrderCompare_buy a b :
  buy_side a -> OrderCompare a b = (price a <? price b)%float.
Proof. unfold OrderCompare, buy_side. by intros ->. Qed.

Lemma OrderCompare_sell a b :
  sell_side a -> OrderCompare a b = (price b <? price a)%float.
Proof. unfold OrderCompare, sell_side. by intros ->. Qed.

Lemma OrderCompare_buy_asym x y :
  buy_side x /\ priced x -> buy_side y /\ priced y ->
  OrderCompare x y = true -> OrderCompare y x = false.
Proof.
  intros [Hx _] [Hy _]. rewrite !OrderCompare_buy by done. apply double_ltb_asym.
Qed.

Lemma OrderCompare_buy_trans x y z :
  buy_side x /\ priced x -> buy_side y /\ priced y -> buy_side z /\ priced z ->
  OrderCompare x y = true -> OrderCompare y z = true -> OrderCompare x z = true.
Proof.
  intros [Hx _] [Hy _] [Hz _]. rewrite !OrderCompare_buy by done. apply double_ltb_trans.
Qed.

Lemma OrderCompare_buy_ntrans x y z :
  buy_side x /\ priced x -> buy_side y /\ priced y -> buy_side z /\ priced z ->
  OrderCompare x y = false -> OrderCompare y z = false -> OrderCompare x z = false.
Proof.
  intros [Hx Px] [Hy Py] [Hz Pz]. rewrite !OrderCompare_buy by done.
  by apply double_ltb_ntrans.
Qed.

Lemma OrderCompare_sell_asym x y :
  sell_side x /\ priced x -> sell_side y /\ priced y ->
  OrderCompare x y = true -> OrderCompare y x = false.
Proof.
  intros [Hx _] [Hy _]. rewrite !OrderCompare_sell by done. apply double_ltb_asym.
Qed.

Lemma OrderCompare_sell_trans x y z :
  sell_side x /\ priced x -> sell_side y /\ priced y -> sell_side z /\ priced z ->
  OrderCompare x y = true -> OrderCompare y z = true -> OrderCompare x z = true.
Proof.
  intros [Hx _] [Hy _] [Hz _]. rewrite !OrderCompare_sell by done.
  intros H1 H2. by apply (double_ltb_trans _ (price y)).
Qed.

Lemma OrderCompare_sell_ntrans x y z :
  sell_side x /\ priced x -> sell_side y /\ priced y -> sell_side z /\ priced z ->
  OrderCompare x y = false -> OrderCompare y z = false -> OrderCompare x z = false.
Proof.
  intros [Hx Px] [Hy Py] [Hz Pz]. rewrite !OrderCompare_sell by done.
  intros H1 H2. by apply (double_ltb_ntrans _ (price y)).
Qed.

Lemma new_OrderBook_ok s : book_ok (new_OrderBook s).
Proof. split; simpl; try done; by intros i ? ? ? ?. Qed.

Lemma new_OrderBook_sides s : sides_ok (new_OrderBook s).
Proof. by split. Qed.

Lemma pq_top_cons {A} (c : list A) t : pq_top c = Some t -> exists c', c = t :: c'.
Proof. destruct c as [|x c]; [done|]. intros [= ->]. by exists c. Qed.

Lemma pop_side_ok (D : Order -> Prop) c :
  Forall D c -> Forall D (pq_pop OrderCompare c).
Proof.
  destruct c as [|t c]; [done|]. intros [_ H]%Forall_cons_1.
  by rewrite pq_pop_perm.
Qed.

(** A fill keeps what holds of every order of a queue and does not
    depend on the quantity. *)
Lemma fill_side_ok (D : Order -> Prop) t m c :
  (forall x q, D x -> D (sub_quantity x q)) -> Forall D (t :: c) ->
  Forall D (if quantity t =? m then pq_pop OrderCompare (t :: c)
            else <[0%nat := sub_quantity t m]> (t :: c)).
Proof.
  intros Hsub H. destruct (_ =? _); [by apply pop_side_ok|].
  apply Forall_insert; [done|]. apply Hsub. by apply Forall_cons_1 in H as [? _].
Qed.

Lemma match_step_inv bk bk' :
  match_step bk = Some bk' ->
  exists buy sell, pq_top (buy_orders bk) = Some buy /\ pq_top (sell_orders bk) = Some sell /\
    (price sell <=? price buy)%float = true.
Proof.
  unfold match_step.
  destruct (pq_top (buy_orders bk)) as [buy|]; [|done].
  destruct (pq_top (sell_orders bk)) as [sell|]; [|done].
  destruct (_ <=? _)%float eqn:E; [|done]. intros _. by exists buy, sell.
Qed.

Lemma match_step_Some bk buy sell :
  pq_top (buy_orders bk) = Some buy -> pq_top (sell_orders bk) = Some sell ->
  (price sell <=? price buy)%float = true ->
  let mq := matched_quantity buy sell in
  let mp := matched_price buy sell in
  let position' := int_wrap (position_ bk + mq) in
  let average_price' :=
    ((average_price_ bk * double_of_int position' + mp * double_of_int mq)
     / double_of_int (int_wrap (position' + mq)))%float in
  match_step bk =
    Some (mkOrderBook (symbol_ bk)
      (if quantity buy =? mq then pq_pop OrderCompare (buy_orders bk)
       else <[0%nat := sub_quantity buy mq]> (buy_orders bk))
      (if quantity sell =? mq then pq_pop OrderCompare (sell_orders bk)
       else <[0%nat := sub_quantity sell mq]> (sell_orders bk))
      position' average_price'
      (realized_pnl_ bk + (mp - average_price') * double_of_int mq)%float).
Proof.
  intros Hb Hs Hle. unfold match_step. rewrite Hb, Hs. by rewrite Hle.
Qed.

Lemma match_step_sides bk bk' : sides_ok bk -> match_step bk = Some bk' -> sides_ok bk'.
Proof.
  intros [Hb Hs] H. destruct (match_step_inv _ _ H) as (buy & sell & Eb & Es & Hle).
  rewrite (match_step_Some bk buy sell Eb Es Hle) in H. injection H as <-.
  apply pq_top_cons in Eb as [bs Eb]. apply pq_top_cons in Es as [ss Es].
  rewrite Eb, Es in *. split; cbn [buy_orders sell_orders]; by apply fill_side_ok.
Qed.

Lemma match_orders_loop_sides n bk : sides_ok bk -> sides_ok (match_orders_loop n bk).
Proof.
  revert bk. induction n as [|n IH]; intros bk Hok; [done|]. cbn [match_orders_loop].
  destruct (match_step bk) as [bk'|] eqn:E; [|done]. eauto using match_step_sides.
Qed.

Lemma push_order_sides x bk : sides_ok bk -> sides_ok (push_order x bk).
Proof.
  intros [Hb Hs]. unfold push_order.
  destruct (is_buy x) eqn:Ex; split; cbn [buy_orders sell_orders]; try done;
    rewrite pq_push_perm; by constructor.
Qed.

Lemma match_step_ok bk bk' : book_ok bk -> match_step bk = Some bk' -> book_ok bk'.
Proof.
  intros [Hb Hs Hbh Hsh] H.
  destruct (match_step_inv _ _ H) as (buy & sell & Eb & Es & Hle).
  rewrite (match_step_Some bk buy sell Eb Es Hle) in H. injection H as <-.
  apply pq_top_cons in Eb as [bs Eb]. apply pq_top_cons in Es as [ss Es].
  rewrite Eb, Es in *. split; cbn [buy_orders sell_orders].
  - by apply fill_side_ok.
  - by apply fill_side_ok.
  - destruct (_ =? _).
    + by apply (pq_pop_heap OrderCompare (fun x => buy_side x /\ priced x) _
        (OrderCompare_buy_asym) (OrderCompare_buy_trans) (OrderCompare_buy_ntrans)).
    + by apply is_heap_replace_top.
  - destruct (quantity sell =? _).
    + by apply (pq_pop_heap OrderCompare (fun x => sell_side x /\ priced x) _
        (OrderCompare_sell_asym) (OrderCompare_sell_trans) (OrderCompare_sell_ntrans)).
    + by apply is_heap_replace_top.
Qed.

Lemma match_orders_loop_ok n bk : book_ok bk -> book_ok (match_orders_loop n bk).
Proof.
  revert bk. induction n as [|n IH]; intros bk Hok; [done|]. cbn [match_orders_loop].
  destruct (match_step bk) as [bk'|] eqn:E; [|done]. eauto using match_step_ok.
Qed.

Lemma push_order_ok x bk : priced x -> book_ok bk -> book_ok (push_order x bk).
Proof.
  intros Hx [Hb Hs Hbh Hsh]. unfold push_order.
  destruct (is_buy x) eqn:Ex; split; cbn [buy_orders sell_orders]; try done.
  - rewrite pq_push_perm. by constructor.
  - by apply (push_heap_heap OrderCompare (fun x => buy_side x /\ priced x)
        (OrderCompare_buy_asym) (OrderCompare_buy_trans) (OrderCompare_buy_ntrans)).
  - rewrite pq_push_perm. by constructor.
  - by apply (push_heap_heap OrderCompare (fun x => sell_side x /\ priced x)
        (OrderCompare_sell_asym) (OrderCompare_sell_trans) (OrderCompare_sell_ntrans)).
Qed.

Lemma add_order_ok x bk : priced x -> book_ok bk -> book_ok (add_order x bk).
Proof. intros. by apply match_orders_loop_ok, push_order_ok. Qed.

(** The loop runs to its exit: every iteration removes an order. *)
Lemma match_step_size bk bk' :
  match_step bk = Some bk' -> (book_size bk' < book_size bk)%nat.
Proof.
  unfold match_step, book_size.
  destruct (pq_top (buy_orders bk)) as [buy|] eqn:Eb; [|done].
  destruct (pq_top (sell_orders bk)) as [sell|] eqn:Es; [|done].
  destruct (_ <=? _)%float; [|done]. intros [= <-]. cbn [buy_orders sell_orders].
  apply pq_top_cons in Eb as [bs Eb]. apply pq_top_cons in Es as [ss Es].
  unfold matched_quantity.
  destruct (quantity buy =? _) eqn:E1; destruct (quantity sell =? _) eqn:E2;
    rewrite ?pq_pop_length, ?length_insert, Eb, Es; simpl; lia.
Qed.

Lemma match_step_empty bk : book_size bk = 0%nat -> match_step bk = None.
Proof.
  unfold book_size, match_step. destruct (buy_orders bk); [done|simpl; lia].
Qed.

Lemma match_orders_loop_exit n bk :
  (book_size bk <= n)%nat -> match_step (match_orders_loop n bk) = None.
Proof.
  revert bk. induction n as [|n IH]; intros bk Hn; cbn [match_orders_loop].
  - apply match_step_empty. lia.
  - destruct (match_step bk) as [bk'|] eqn:E; [|done].
    apply IH. apply match_step_size in E. lia.
Qed.

Lemma match_orders_loop_fuel n m bk :
  (book_size bk <= n)%nat -> (book_size bk <= m)%nat ->
  match_orders_loop n bk = match_orders_loop m bk.
Proof.
  revert m bk. induction n as [|n IH]; intros m bk Hn Hm.
  - destruct m as [|m]; [done|]. cbn [match_orders_loop].
    by rewrite match_step_empty by lia.
  - destruct m as [|m]; cbn [match_orders_loop].
    + by rewrite match_step_empty by lia.
    + destruct (match_step bk) as [bk'|] eqn:E; [|done].
      apply match_step_size in E. apply IH; lia.
Qed.

(** [match_orders] returns, and it returns at the exit of the loop. *)
Lemma match_orders_exit bk : match_step (match_orders bk) = None.
Proof. by apply match_orders_loop_exit. Qed.


(** * Properties of the matching loop *)

Lemma run_orders_snoc os x bk : run_orders (os ++ [x]) bk = add_order x (run_orders os bk).
Proof. unfold run_orders. by rewrite fold_left_app. Qed.

Lemma run_orders_ok os bk : Forall priced os -> book_ok bk -> book_ok (run_orders os bk).
Proof.
  revert bk. induction os as [|x os IH]; intros bk Hos Hok; [done|].
  apply Forall_cons_1 in Hos as [Hx Hos]. apply IH; [done|]. by apply add_order_ok.
Qed.

Lemma run_orders_sides os bk : sides_ok bk -> sides_ok (run_orders os bk).
Proof.
  revert bk. induction os as [|x os IH]; intros bk Hok; [done|].
  apply IH. by apply match_orders_loop_sides, push_order_sides.
Qed.

Lemma run_orders_exit os s : match_step (run_orders os (new_OrderBook s)) = None.
Proof.
  destruct os as [|x os _] using rev_ind; [done|].
  rewrite run_orders_snoc. apply match_orders_exit.
Qed.

(** In a book whose prices are numbers the top of a side has the best
    price of the side. *)
Lemma book_ok_tops bk :
  book_ok bk ->
  (forall t y, pq_top (buy_orders bk) = Some t -> y ∈ buy_orders bk ->
     (price y <=? price t)%float = true) /\
  (forall t y, pq_top (sell_orders bk) = Some t -> y ∈ sell_orders bk ->
     (price t <=? price y)%float = true).
Proof.
  intros [Hb Hs Hbh Hsh]. split; intros t y Ht Hy.
  - apply pq_top_cons in Ht as [c Ht]. rewrite Ht in *.
    pose proof (heap_top_max OrderCompare _ OrderCompare_buy_asym
      OrderCompare_buy_ntrans (t :: c) t Hb Hbh eq_refl y Hy) as H.
    rewrite Forall_forall in Hb.
    destruct (Hb t ltac:(left)) as [St Pt]. destruct (Hb y Hy) as [Sy Py].
    rewrite OrderCompare_buy in H by done. by apply double_not_ltb_leb.
  - apply pq_top_cons in Ht as [c Ht]. rewrite Ht in *.
    pose proof (heap_top_max OrderCompare _ OrderCompare_sell_asym
      OrderCompare_sell_ntrans (t :: c) t Hs Hsh eq_refl y Hy) as H.
    rewrite Forall_forall in Hs.
    destruct (Hs t ltac:(left)) as [St Pt]. destruct (Hs y Hy) as [Sy Py].
    rewrite OrderCompare_sell in H by done. by apply double_not_ltb_leb.
Qed.

(** A book at the exit of the loop is not crossed, whatever rests in it,
    when its prices are numbers. *)
Lemma exit_uncrossed bk b a :
  book_ok bk -> match_step bk = None ->
  b ∈ buy_orders bk -> a ∈ sell_orders bk -> (price b <? price a)%float = true.
Proof.
  intros Hok Hexit Hbin Hain. destruct (book_ok_tops bk Hok) as [Tb Ts].
  destruct Hok as [Hb Hs _ _]. rewrite Forall_forall in Hb, Hs.
  unfold match_step in Hexit.
  destruct (buy_orders bk) as [|tb bs] eqn:Eb; [by apply elem_of_nil in Hbin|].
  destruct (sell_orders bk) as [|ta ss] eqn:Es; [by apply elem_of_nil in Hain|].
  cbn [pq_top head] in Hexit.
  destruct (price ta <=? price tb)%float eqn:Hc; [done|].
  apply double_not_leb_ltb in Hc; [|by apply (Hs ta); left|by apply (Hb tb); left].
  apply (double_leb_ltb_trans _ (price tb)); [by apply Tb|].
  apply (double_ltb_leb_trans _ (price ta)); [done|by apply Ts].
Qed.

(** C3, as stated, fails: a sell order whose price is NaN is accepted and
    stays on top of the sell queue, since every comparison with it is
    false; the sell at 90 rests under it, the buy at 100 does not match,
    and the book is left with a bid of 100 over an offer of 90. *)
Lemma nan_price_leaves_book_crossed :
  let bk := run_orders [order "n" nan 10 false; order "s" 90 10 false; order "b" 100 10 true]
              (new_OrderBook "AAPL") in
  buy_orders bk = [order "b" 100 10 true] /\
  sell_orders bk = [order "n" nan 10 false; order "s" 90 10 false] /\
  (get_best_bid bk <? get_best_ask bk)%float = false /\
  (price (order "b" 100 10 true) <? price (order "s" 90 10 false))%float = false /\
  (price (order "s" 90 10 false) <? price (order "b" 100 10 true))%float = true.
Proof. by vm_compute. Qed.

(** C3, amended: after any sequence of [add_order] calls on a new book
    with orders whose prices are not NaN, when both sides are non-empty
    the best bid is strictly below the best ask, and so is the price of
    every resting buy order below the price of every resting sell order:
    the book is never left crossed. *)
Theorem no_crossed_book (os : list Order) (s : string) :
  Forall priced os ->
  let bk := run_orders os (new_OrderBook s) in
  (buy_orders bk <> [] -> sell_orders bk <> [] ->
     (get_best_bid bk <? get_best_ask bk)%float = true) /\
  (forall b a, b ∈ buy_orders bk -> a ∈ sell_orders bk ->
     (price b <? price a)%float = true).
Proof.
  intros Hos bk.
  assert (forall b a, b ∈ buy_orders bk -> a ∈ sell_orders bk ->
            (price b <? price a)%float = true) as H.
  { intros b a. apply exit_uncrossed.
    - by apply run_orders_ok, new_OrderBook_ok.
    - apply run_orders_exit. }
  split; [|done]. unfold get_best_bid, get_best_ask.
  destruct (buy_orders bk) as [|tb bs]; [done|].
  destruct (sell_orders bk) as [|ta ss]; [done|].
  intros _ _. cbn [pq_top head]. apply H; apply list_elem_of_here.
Qed.

Lemma no_crossed_book_witness :
  let bk := run_orders [order "s1" 100 50 false; order "b1" 105 100 true;
                        order "s2" 110 20 false] (new_OrderBook "AAPL") in
  (buy_orders bk <> [] -> sell_orders bk <> [] ->
     (get_best_bid bk <? get_best_ask bk)%float = true) /\
  (forall b a, b ∈ buy_orders bk -> a ∈ sell_orders bk ->
     (price b <? price a)%float = true).
Proof.
  apply (no_crossed_book [order "s1" 100 50 false; order "b1" 105 100 true;
                          order "s2" 110 20 false] "AAPL").
  repeat constructor.
Defined.

(** Goals on the range of [int]. *)
Ltac int_lia :=
  unfold in_int, positive_quantity, matched_quantity, INT_MIN, INT_MAX in *;
  change (2 ^ 31) with 2147483648 in *; change (2 ^ 32) with 4294967296 in *; lia.

Lemma int_wrap_id z : in_int z -> int_wrap z = z.
Proof. unfold int_wrap. int_lia. Qed.





(** C1 (the code departs from it): the fill of [readme_fill] is 50
    units at 100.25 on a position of 0 with average price 0.  The
    pre-trade formula gives (0 * |0| + 100.25 * 50) / (|0| + 50) = 100.25,
    the average price that the README shows for this fill; the code adds
    the quantity to the position first and stores
    (0 * 50 + 100.25 * 50) / (50 + 50) = 50.125.  All these numbers are
    exact in [double]. *)
Theorem average_cost_uses_post_trade_position :
  position_ readme_book = 0 /\
  average_price_ readme_book = 0%float /\
  match_step readme_book = Some readme_fill /\
  matched_quantity (order "b" 100.25 50 true) (order "s" 100.25 50 false) = 50 /\
  matched_price (order "b" 100.25 50 true) (order "s" 100.25 50 false) = 100.25%float /\
  position_ readme_fill = 50 /\
  average_price_ readme_fill = 50.125%float /\
  ((0 * double_of_int (Z.abs 0) + 100.25 * double_of_int 50)
   / (double_of_int (Z.abs 0) + double_of_int 50))%float = 100.25%float /\
  (average_price_ readme_fill
   =? (0 * double_of_int (Z.abs 0) + 100.25 * double_of_int 50)
      / (double_of_int (Z.abs 0) + double_of_int 50))%float = false.
Proof. by vm_compute. Qed.

(** The formula of the code on every fill: the position in it is the
    position after the fill, and the quantity is counted once more in the
    denominator. *)
Lemma match_step_average_price bk bk' :
  match_step bk = Some bk' ->
  exists buy sell, pq_top (buy_orders bk) = Some buy /\ pq_top (sell_orders bk) = Some sell /\
    let mq := matched_quantity buy sell in
    position_ bk' = int_wrap (position_ bk + mq) /\
    average_price_ bk' =
      ((average_price_ bk * double_of_int (position_ bk')
        + matched_price buy sell * double_of_int mq)
       / double_of_int (int_wrap (position_ bk' + mq)))%float.
Proof.
  intros H. destruct (match_step_inv _ _ H) as (buy & sell & Hb & Hs & Hle).
  exists buy, sell. rewrite (match_step_Some bk buy sell Hb Hs Hle) in H.
  injection H as <-. done.
Qed.

(** C4 (the code departs from it): the fill of [readme_fill] opens a
    position, from 0 to 50 units, and the fill of [two_fills] increases
    one, from 50 to 80 units; each of them changes [realized_pnl_].  After
    the opening fill the README shows a realized P&L of 0.00; the code
    has (100.25 - 50.125) * 50 = 2506.25. *)
Theorem realized_pnl_changes_on_opening_fill :
  position_ readme_book = 0 /\ realized_pnl_ readme_book = 0%float /\
  match_step readme_book = Some readme_fill /\
  position_ readme_fill = 50 /\
  realized_pnl_ readme_fill = 2506.25%float /\
  (realized_pnl_ readme_fill =? realized_pnl_ readme_book)%float = false /\
  position_ one_fill = 50 /\
  match_step (push_order (order "s2" 95 30 false) one_fill) = Some two_fills /\
  position_ two_fills = 80 /\
  (realized_pnl_ two_fills =? realized_pnl_ one_fill)%float = false.
Proof. by vm_compute. Qed.

(** The rule of the code for [realized_pnl_], on every fill. *)
Lemma match_step_realized_pnl (bk bk' : OrderBook) :
  match_step bk = Some bk' ->
  exists buy sell, pq_top (buy_orders bk) = Some buy /\ pq_top (sell_orders bk) = Some sell /\
    realized_pnl_ bk' =
      (realized_pnl_ bk
       + (matched_price buy sell - average_price_ bk')
         * double_of_int (matched_quantity buy sell))%float.
Proof.
  intros H. destruct (match_step_inv _ _ H) as (buy & sell & Hb & Hs & Hle).
  exists buy, sell. rewrite (match_step_Some bk buy sell Hb Hs Hle) in H.
  injection H as <-. done.
Qed.

(** * Volume and position *)

#[local] Instance sum_quantity_perm : Proper ((≡ₚ) ==> (=)) sum_quantity.
Proof.
  intros c1 c2 H. induction H as [|x c1 c2 _ IH|x y c|c1 c2 c3 _ IH1 _ IH2]; simpl; lia.
Qed.

Lemma sum_quantity_nonneg c : Forall positive_quantity c -> 0 <= sum_quantity c.
Proof. induction 1 as [|x c Hx _ IH]; simpl; [done|]. unfold positive_quantity in Hx. lia. Qed.

Lemma match_step_volume V bk bk' :
  volume_ok V bk -> match_step bk = Some bk' ->
  volume_ok V bk' /\ position_ bk < position_ bk'.
Proof.
  intros [Hb Hs Hpos Hsum Hmax] H.
  destruct (match_step_inv _ _ H) as (buy & sell & Htb & Hts & Hle).
  rewrite (match_step_Some bk buy sell Htb Hts Hle) in H. injection H as <-.
  apply pq_top_cons in Htb as [bs Eb]. apply pq_top_cons in Hts as [ss Es].
  rewrite Eb in *. rewrite Es in *. cbn [position_ buy_orders sell_orders].
  apply Forall_cons_1 in Hb as [Hbuy Hbs]. apply Forall_cons_1 in Hs as [Hsell Hss].
  pose proof (sum_quantity_nonneg bs Hbs) as Hnn.
  assert (0 < matched_quantity buy sell <= quantity buy /\
          matched_quantity buy sell <= quantity sell) as Hmq.
  { int_lia. }
  cbn [sum_quantity foldr] in Hsum. fold (sum_quantity bs) in Hsum.
  assert (int_wrap (position_ bk + matched_quantity buy sell)
          = position_ bk + matched_quantity buy sell) as Hw.
  { apply int_wrap_id. int_lia. }
  rewrite Hw. split; [|lia]. split; cbn [position_ buy_orders sell_orders].
  - destruct (quantity buy =? _) eqn:E.
    + rewrite pq_pop_perm. done.
    + apply Z.eqb_neq in E. constructor; [|done].
      unfold positive_quantity, sub_quantity in *. cbn [quantity].
      rewrite int_wrap_id; int_lia.
  - destruct (quantity sell =? _) eqn:E.
    + rewrite pq_pop_perm. done.
    + apply Z.eqb_neq in E. constructor; [|done].
      unfold positive_quantity, sub_quantity in *. cbn [quantity].
      rewrite int_wrap_id; int_lia.
  - lia.
  - destruct (quantity buy =? _) eqn:E.
    + apply Z.eqb_eq in E. rewrite pq_pop_perm. lia.
    + apply Z.eqb_neq in E. cbn [insert list_insert sum_quantity foldr sub_quantity quantity].
      fold (sum_quantity bs). rewrite int_wrap_id; int_lia.
  - done.
Qed.

Lemma match_orders_loop_volume n V bk :
  volume_ok V bk ->
  volume_ok V (match_orders_loop n bk) /\ position_ bk <= position_ (match_orders_loop n bk).
Proof.
  revert bk. induction n as [|n IH]; intros bk Hok; cbn [match_orders_loop]; [split; [done|lia]|].
  destruct (match_step bk) as [bk'|] eqn:E; [|split; [done|lia]].
  destruct (match_step_volume V bk bk' Hok E) as [Hok' Hlt].
  destruct (IH bk' Hok') as [? ?]. split; [done|lia].
Qed.

Lemma push_order_volume V x bk :
  volume_ok V bk -> positive_quantity x ->
  V + (if is_buy x then quantity x else 0) <= INT_MAX ->
  volume_ok (V + (if is_buy x then quantity x else 0)) (push_order x bk).
Proof.
  intros [Hb Hs Hpos Hsum Hmax] Hx HV. unfold push_order.
  destruct (is_buy x); split; cbn [position_ buy_orders sell_orders];
    rewrite ?pq_push_perm; try done; try (by constructor).
  - simpl. fold (sum_quantity (buy_orders bk)). lia.
  - lia.
Qed.

Lemma buy_volume_snoc os x :
  buy_volume (os ++ [x]) = buy_volume os + (if is_buy x then quantity x else 0).
Proof.
  unfold buy_volume. induction os as [|y os IH]; simpl.
  - destruct (is_buy x); lia.
  - rewrite IH. destruct (is_buy y); lia.
Qed.

Lemma run_orders_volume os s :
  Forall positive_quantity os -> buy_volume os <= INT_MAX ->
  volume_ok (buy_volume os) (run_orders os (new_OrderBook s)).
Proof.
  induction os as [|x os IH] using rev_ind; intros Hq HV.
  - by split.
  - apply Forall_app in Hq as [Hos Hx]. rewrite Forall_singleton in Hx.
    rewrite buy_volume_snoc in *. rewrite run_orders_snoc.
    assert (0 <= (if is_buy x then quantity x else 0)).
    { unfold positive_quantity in Hx. destruct (is_buy x); lia. }
    apply match_orders_loop_volume, push_order_volume; [|done|done].
    apply IH; [done|lia].
Qed.

(** C10, as stated, fails: an order with a negative quantity is accepted
    and the fill against it takes the position from 0 to -5. *)
Lemma position_decreases_on_negative_quantity :
  get_position (run_orders [order "b" 100 (-5) true] (new_OrderBook "AAPL")) = 0 /\
  get_position negative_fill = -5.
Proof. by vm_compute. Qed.

(** C10, amended: on orders of positive quantity whose total buy quantity
    fits an [int], the position is never negative and never decreases
    from one [add_order] to the next, and it is the matched volume: the
    buy quantity submitted so far less the buy quantity still resting.
    Every match adds its matched quantity to the position (in [int]
    arithmetic), whichever order arrived last. *)
Theorem position_is_matched_volume (os : list Order) (x : Order) (s : string) :
  Forall positive_quantity (os ++ [x]) -> buy_volume (os ++ [x]) <= INT_MAX ->
  let before := run_orders os (new_OrderBook s) in
  let after := run_orders (os ++ [x]) (new_OrderBook s) in
  0 <= get_position before <= get_position after /\
  get_position after = buy_volume (os ++ [x]) - sum_quantity (buy_orders after) /\
  (forall bk bk', match_step bk = Some bk' ->
     exists buy sell, pq_top (buy_orders bk) = Some buy /\ pq_top (sell_orders bk) = Some sell /\
       position_ bk' = int_wrap (position_ bk + matched_quantity buy sell)).
Proof.
  intros Hq HV before after.
  pose proof (run_orders_volume (os ++ [x]) s Hq HV) as [_ _ _ Hsum _]. fold after in Hsum.
  apply Forall_app in Hq as [Hos Hx]. rewrite Forall_singleton in Hx.
  rewrite buy_volume_snoc in HV.
  assert (0 <= (if is_buy x then quantity x else 0)).
  { unfold positive_quantity in Hx. destruct (is_buy x); lia. }
  pose proof (run_orders_volume os s Hos ltac:(lia)) as Hbefore. fold before in Hbefore.
  split_and!.
  - by destruct Hbefore.
  - unfold after. rewrite run_orders_snoc. fold before. unfold add_order, match_orders.
    pose proof (push_order_volume _ x before Hbefore Hx HV) as Hpush.
    destruct (match_orders_loop_volume (book_size (push_order x before)) _ _ Hpush) as [_ Hle].
    unfold get_position. etrans; [|exact Hle]. unfold push_order. by destruct (is_buy x).
  - unfold get_position. lia.
  - intros bk bk' Hstep. destruct (match_step_average_price bk bk' Hstep)
      as (buy & sell & Hb & Hs & Hp & _). by exists buy, sell.
Qed.

Lemma position_is_matched_volume_witness :
  let before := run_orders [order "s1" 100 50 false] (new_OrderBook "AAPL") in
  let after := run_orders ([order "s1" 100 50 false] ++ [order "b1" 105 100 true])
                 (new_OrderBook "AAPL") in
  0 <= get_position before <= get_position after /\
  get_position after
    = buy_volume ([order "s1" 100 50 false] ++ [order "b1" 105 100 true])
      - sum_quantity (buy_orders after) /\
  (forall bk bk', match_step bk = Some bk' ->
     exists buy sell, pq_top (buy_orders bk) = Some buy /\ pq_top (sell_orders bk) = Some sell /\
       position_ bk' = int_wrap (position_ bk + matched_quantity buy sell)).
Proof.
  apply (position_is_matched_volume [order "s1" 100 50 false] (order "b1" 105 100 true) "AAPL").
  - repeat constructor; vm_compute; congruence.
  - vm_compute. congruence.
Defined.

(** * Priority among resting orders *)









(** * The engine *)

Lemma try_emplace_lookup s books :
  Engine.try_emplace s books !! s = Some (default (new_OrderBook s) (books !! s)).
Proof.
  unfold Engine.try_emplace. destruct (books !! s) as [bk|] eqn:E; simpl.
  - by rewrite E.
  - by rewrite lookup_insert_eq.
Qed.

Lemma try_emplace_lookup_ne s s' books :
  s <> s' -> Engine.try_emplace s books !! s' = books !! s'.
Proof.
  intros Hne. unfold Engine.try_emplace. destruct (books !! s); [done|].
  by rewrite lookup_insert_ne.
Qed.

Lemma generate_order_id_length dis k :
  String.length (Engine.generate_order_id dis k).1 = 36%nat.
Proof. reflexivity. Qed.

Lemma submit_order_eq dis order e :
  Engine.submit_order dis order e =
  let id := (Engine.generate_order_id dis (Engine.id_draws e)).1 in
  (id,
   Engine.mkEngine (Engine.running e)
     (alter (add_order (Engine.with_id order id)) (symbol order)
        (Engine.try_emplace (symbol order) (Engine.order_books e)))
     (Engine.market_data_callbacks e) (Engine.trade_callbacks e)
     (Engine.generate_order_id dis (Engine.id_draws e)).2,
   []).
Proof.
  unfold Engine.submit_order.
  by destruct (Engine.generate_order_id dis (Engine.id_draws e)) as [id k].
Qed.

Lemma match_step_one_sided bk :
  buy_orders bk = [] \/ sell_orders bk = [] -> match_step bk = None.
Proof.
  unfold match_step. intros [-> | ->]; [done|]. by destruct (pq_top (buy_orders bk)).
Qed.

Lemma match_orders_one_sided bk :
  buy_orders bk = [] \/ sell_orders bk = [] -> match_orders bk = bk.
Proof.
  intros H. unfold match_orders. destruct (book_size bk); [done|].
  cbn [match_orders_loop]. by rewrite match_step_one_sided.
Qed.

Lemma add_order_rests x bk :
  (is_buy x = true -> sell_orders bk = [] -> x ∈ buy_orders (add_order x bk)) /\
  (is_buy x = false -> buy_orders bk = [] -> x ∈ sell_orders (add_order x bk)).
Proof.
  unfold add_order, push_order. split; intros Hx Hempty; rewrite Hx.
  - rewrite match_orders_one_sided by (by right). cbn [buy_orders].
    rewrite pq_push_perm. apply list_elem_of_here.
  - rewrite match_orders_one_sided by (by left). cbn [sell_orders].
    rewrite pq_push_perm. apply list_elem_of_here.
Qed.

(** C8, as stated, fails: a buy at price -1 for 0 units is not rejected;
    [submit_order] returns an id and the order rests in the book. *)
Lemma malformed_order_enters_book :
  let bad := mkOrder "" "AAPL" (-1) 0 true in
  let r := Engine.submit_order dis0 bad Engine.new_ExecutionEngine in
  Engine.order_books Engine.new_ExecutionEngine !! "AAPL" = None /\
  r.1.1 = "01234567-89ab-cdef-0123-456789abcdef" /\
  buy_orders <$> (Engine.order_books r.1.2 !! "AAPL")
    = Some [mkOrder "01234567-89ab-cdef-0123-456789abcdef" "AAPL" (-1) 0 true].
Proof. by vm_compute. Qed.

(** C8, amended: [submit_order] has no rejection.  For every order, of
    positive price and quantity or not, it returns the generated id of 36
    characters and calls [add_order] with the order carrying that id on
    the book of its symbol, which it creates when there is none; the books
    of the other symbols are untouched, and when the opposite side of the
    book is empty the order rests in it. *)
Theorem submit_order_never_rejects (dis : nat -> nat) (order : Order)
    (e : Engine.ExecutionEngine) :
  exists id e', Engine.submit_order dis order e = (id, e', []) /\
    id = (Engine.generate_order_id dis (Engine.id_draws e)).1 /\
    String.length id = 36%nat /\
    let before := default (new_OrderBook (symbol order))
                    (Engine.order_books e !! symbol order) in
    let after := add_order (Engine.with_id order id) before in
    Engine.order_books e' !! symbol order = Some after /\
    (forall s, s <> symbol order -> Engine.order_books e' !! s = Engine.order_books e !! s) /\
    (is_buy order = true -> sell_orders before = [] ->
       Engine.with_id order id ∈ buy_orders after) /\
    (is_buy order = false -> buy_orders before = [] ->
       Engine.with_id order id ∈ sell_orders after).
Proof.
  eexists _, _. split; [apply submit_order_eq|]. cbn [Engine.order_books].
  split_and!.
  - done.
  - apply generate_order_id_length.
  - by rewrite lookup_alter_eq, try_emplace_lookup.
  - intros s Hs. by rewrite lookup_alter_ne, try_emplace_lookup_ne.
  - intros Hside. by apply (add_order_rests (Engine.with_id order _)).
  - intros Hside. by apply (add_order_rests (Engine.with_id order _)).
Qed.

Lemma run_op_calls dis c e : (Engine.run_op dis c e).2 = [].
Proof. by destruct c. Qed.

Lemma run_ops_calls dis cs e : (Engine.run_ops dis cs e).2 = [].
Proof.
  revert e. induction cs as [|c cs IH]; intros e; [done|]. cbn [Engine.run_ops].
  pose proof (run_op_calls dis c e) as H1.
  destruct (Engine.run_op dis c e) as [e1 calls1]. simpl in H1. subst calls1.
  specialize (IH e1). destruct (Engine.run_ops dis cs e1) as [e2 calls2]. by simpl in *.
Qed.

(** The market-data path does call its subscribers. *)
Lemma market_data_is_published :
  (Engine.market_data_pass (fun _ => 1%float) "now" ∅
     (Engine.subscribe_market_data "AAPL" 3%nat Engine.new_ExecutionEngine)).2
  = [CallMarketData 3%nat (mkMarketData "AAPL" (100 * (1 + 1 * one_percent)) 100 "now")].
Proof. by vm_compute. Qed.

(** C5 (the code departs from it): no call on the engine calls a trade
    callback.  In the scenario of [test_trade_notification], with a trade
    subscriber registered for AAPL, a buy and a sell of 100 at 150 match
    (the position goes to 100) and the subscriber is not called. *)
Theorem trades_are_never_published :
  (forall dis cs e, (Engine.run_ops dis cs e).2 = []) /\
  let r := Engine.run_ops dis0
             [Engine.Start;
              Engine.SubscribeTrades "AAPL" 7%nat;
              Engine.SubmitOrder (mkOrder "" "AAPL" 150 100 true);
              Engine.SubmitOrder (mkOrder "" "AAPL" 150 100 false)]
             Engine.new_ExecutionEngine in
  Engine.trade_callbacks r.1 !! "AAPL" = Some [7%nat] /\
  Engine.get_position "AAPL" r.1 = 100 /\
  r.2 = [].
Proof. split; [apply run_ops_calls|by vm_compute]. Qed.

Lemma run_op_books dis c e s :
  (forall order, c = Engine.SubmitOrder order -> symbol order <> s) ->
  Engine.order_books (Engine.run_op dis c e).1 !! s = Engine.order_books e !! s.
Proof.
  intros H. destruct c as [| |order| | | |]; try done.
  cbn [Engine.run_op]. rewrite submit_order_eq. cbn [fst Engine.order_books].
  specialize (H order eq_refl).
  by rewrite lookup_alter_ne, try_emplace_lookup_ne.
Qed.

Lemma run_ops_books dis cs e s :
  (forall order, Engine.SubmitOrder order ∈ cs -> symbol order <> s) ->
  Engine.order_books (Engine.run_ops dis cs e).1 !! s = Engine.order_books e !! s.
Proof.
  revert e. induction cs as [|c cs IH]; intros e H; [done|]. cbn [Engine.run_ops].
  pose proof (run_op_books dis c e s) as H1.
  destruct (Engine.run_op dis c e) as [e1 calls1]. cbn [fst] in H1.
  specialize (IH e1). destruct (Engine.run_ops dis cs e1) as [e2 calls2]. cbn [fst] in *.
  rewrite IH, H1; [done| |].
  - intros order ->. apply H, list_elem_of_here.
  - intros order Hin. by apply H, list_elem_of_further.
Qed.

(** C9: for a symbol for which no order was ever submitted, the four read
    queries of the engine return 0: each of them takes [engine_mutex],
    finds no book and returns. *)
Theorem unknown_symbol_reads_zero (dis : nat -> nat) (cs : list Engine.op) (s : string) :
  (forall order, Engine.SubmitOrder order ∈ cs -> symbol order <> s) ->
  let e := (Engine.run_ops dis cs Engine.new_ExecutionEngine).1 in
  Engine.get_position s e = 0 /\
  Engine.get_average_price s e = 0%float /\
  Engine.get_realized_pnl s e = 0%float /\
  LockedEngine.get_position s e = Locking.Returns 0 /\
  LockedEngine.get_average_price s e = Locking.Returns 0%float /\
  LockedEngine.get_unrealized_pnl s e = Locking.Returns 0%float /\
  LockedEngine.get_realized_pnl s e = Locking.Returns 0%float.
Proof.
  intros H e.
  assert (Engine.order_books e !! s = None) as Hnone.
  { unfold e. by rewrite run_ops_books. }
  unfold Engine.get_position, Engine.get_average_price, Engine.get_realized_pnl,
    LockedEngine.get_position, LockedEngine.get_average_price,
    LockedEngine.get_unrealized_pnl, LockedEngine.get_realized_pnl. by rewrite Hnone.
Qed.

Lemma unknown_symbol_reads_zero_witness :
  let e := (Engine.run_ops dis0
              [Engine.SubscribeTrades "MSFT" 1%nat; Engine.SubmitOrder (order "" 100 50 false);
               Engine.SubmitOrder (order "" 105 100 true)]
              Engine.new_ExecutionEngine).1 in
  Engine.get_position "MSFT" e = 0 /\
  Engine.get_average_price "MSFT" e = 0%float /\
  Engine.get_realized_pnl "MSFT" e = 0%float /\
  LockedEngine.get_position "MSFT" e = Locking.Returns 0 /\
  LockedEngine.get_average_price "MSFT" e = Locking.Returns 0%float /\
  LockedEngine.get_unrealized_pnl "MSFT" e = Locking.Returns 0%float /\
  LockedEngine.get_realized_pnl "MSFT" e = Locking.Returns 0%float.
Proof.
  apply (unknown_symbol_reads_zero dis0
    [Engine.SubscribeTrades "MSFT" 1%nat; Engine.SubmitOrder (order "" 100 50 false);
     Engine.SubmitOrder (order "" 105 100 true)] "MSFT").
  intros x Hin.
  repeat (apply elem_of_cons in Hin as [Hin|Hin]; [try discriminate Hin|]).
  - injection Hin as ->. discriminate.
  - injection Hin as ->. discriminate.
  - by apply elem_of_nil in Hin.
Defined.

(** * The mutexes *)

(** Every public method of the book but one takes [book_mutex] once. *)
Lemma locked_methods_return order bk :
  Locking.add_order false order bk = Locking.Returns (add_order order bk) /\
  Locking.get_best_bid false bk = Locking.Returns (get_best_bid bk) /\
  Locking.get_best_ask false bk = Locking.Returns (get_best_ask bk) /\
  Locking.get_position false bk = Locking.Returns (get_position bk) /\
  Locking.get_average_price false bk = Locking.Returns (get_average_price bk) /\
  Locking.get_realized_pnl false bk = Locking.Returns (get_realized_pnl bk).
Proof. done. Qed.

(** C7 (the code departs from it): [OrderBook::get_unrealized_pnl] does
    not return.  It takes [book_mutex] and, holding it, calls the public
    [get_best_bid], which takes the same mutex again; so the call made
    with the mutex free stops there, on every book: the one-sided book
    [one_fill], the same book with a sell resting over the bid, and the
    book that the engine holds for AAPL after these orders.  The claim has
    position * (mid - average price) returned on a two-sided book and 0
    returned on a one-sided one.  [get_best_bid] and [get_best_ask]
    called on their own do return, 105 and 0 on [one_fill]. *)
Theorem unrealized_pnl_does_not_return :
  (forall bk, Locking.get_unrealized_pnl false bk = Locking.Deadlock) /\
  buy_orders one_fill = [order "b1" 105 50 true] /\
  sell_orders one_fill = [] /\
  position_ one_fill = 50 /\
  Locking.get_best_bid false one_fill = Locking.Returns 105%float /\
  Locking.get_best_ask false one_fill = Locking.Returns 0%float /\
  Locking.get_unrealized_pnl false one_fill = Locking.Deadlock /\
  (let bk := add_order (order "s3" 110 20 false) one_fill in
   buy_orders bk = [order "b1" 105 50 true] /\
   sell_orders bk = [order "s3" 110 20 false] /\
   Locking.get_unrealized_pnl false bk = Locking.Deadlock) /\
  (let e := (Engine.run_ops dis0
               [Engine.SubmitOrder (order "" 100 50 false);
                Engine.SubmitOrder (order "" 105 100 true)]
               Engine.new_ExecutionEngine).1 in
   LockedEngine.get_position "AAPL" e = Locking.Returns 50 /\
   LockedEngine.get_unrealized_pnl "AAPL" e = Locking.Deadlock).
Proof. split; [done|by vm_compute]. Qed.

(** * Order identifiers *)

Lemma digit_is_hex n : is_hex_digit (Engine.digit n) = true.
Proof.
  unfold Engine.digit. pose proof (Nat.mod_upper_bound n 16 ltac:(lia)) as H.
  revert H. generalize (n mod 16)%nat. intros m Hm.
  do 16 (destruct m as [|m]; [reflexivity|]). lia.
Qed.

(** X1: an order id is 36 characters long, 8-4-4-4-12: a dash at the
    positions 8, 13, 18 and 23 and a lower-case hexadecimal digit at every
    other position; it takes 32 draws of the random source. *)
Theorem generate_order_id_format (dis : nat -> nat) (k : nat) :
  let id := (Engine.generate_order_id dis k).1 in
  String.length id = 36%nat /\
  (Engine.generate_order_id dis k).2 = (32 + k)%nat /\
  (forall i c, String.get i id = Some c ->
     if bool_decide (i ∈ [8; 13; 18; 23]%nat) then c = "-"%char
     else is_hex_digit c = true).
Proof.
  split_and!; [reflexivity|reflexivity|].
  intros i c.
  do 36 (destruct i as [|i];
    [intros [= <-]; first [reflexivity | apply digit_is_hex]|]).
  discriminate.
Qed.

(** * The engine as one book per symbol *)

Lemma submit_order_books dis x e s :
  Engine.order_books (Engine.submit_order dis x e).1.2 !! s =
  if decide (symbol x = s)
  then Some (add_order (Engine.with_id x (Engine.generate_order_id dis (Engine.id_draws e)).1)
               (default (new_OrderBook s) (Engine.order_books e !! s)))
  else Engine.order_books e !! s.
Proof.
  rewrite submit_order_eq. cbn [fst snd Engine.order_books]. case_decide as H.
  - subst s. by rewrite lookup_alter_eq, try_emplace_lookup.
  - by rewrite lookup_alter_ne, try_emplace_lookup_ne.
Qed.

Lemma submit_order_draws dis x e :
  Engine.id_draws (Engine.submit_order dis x e).1.2
  = (Engine.generate_order_id dis (Engine.id_draws e)).2.
Proof. by rewrite submit_order_eq. Qed.

Lemma run_orders_cons x os bk : run_orders (x :: os) bk = run_orders os (add_order x bk).
Proof. done. Qed.

Lemma run_ops_books_spec dis cs e s :
  Engine.order_books (Engine.run_ops dis cs e).1 !! s =
  match filter (fun x => symbol x = s) (submitted dis cs (Engine.id_draws e)) with
  | [] => Engine.order_books e !! s
  | os => Some (run_orders os (default (new_OrderBook s) (Engine.order_books e !! s)))
  end.
Proof.
  revert e. induction cs as [|c cs IH]; intros e; [done|].
  cbn [Engine.run_ops].
  destruct (Engine.run_op dis c e) as [e1 calls1] eqn:E1.
  specialize (IH e1).
  destruct (Engine.run_ops dis cs e1) as [e2 calls2]. cbn [fst] in *.
  destruct c as [| |x| | | |];
    try (injection E1 as <- _; exact IH).
  cbn [Engine.run_op] in E1.
  pose proof (submit_order_books dis x e s) as Hb.
  pose proof (submit_order_draws dis x e) as Hd.
  destruct (Engine.submit_order dis x e) as [[id e'] calls]. injection E1 as -> _.
  cbn [fst snd] in Hb, Hd. rewrite Hd, Hb in IH. rewrite IH.
  cbn [submitted]. rewrite filter_cons. cbn [Engine.with_id symbol].
  case_decide as Hs; [|done].
  by destruct (filter _ _).
Qed.

(** X2: the engine keeps one book per symbol, made on the first order of the
    symbol, and the book of a symbol is the book that the orders of that
    symbol alone build, each order carrying its generated id: orders of
    other symbols, subscriptions, [start] and [stop] do not touch it.
    The position, the average price and the realized P&L that the engine
    reports for the symbol are those of that book. *)
Theorem engine_is_one_book_per_symbol (dis : nat -> nat) (cs : list Engine.op) (s : string) :
  let e := (Engine.run_ops dis cs Engine.new_ExecutionEngine).1 in
  let os := filter (fun x => symbol x = s) (submitted dis cs 0) in
  let bk := run_orders os (new_OrderBook s) in
  Engine.order_books e !! s = (if decide (os = []) then None else Some bk) /\
  Engine.get_position s e = get_position bk /\
  Engine.get_average_price s e = get_average_price bk /\
  Engine.get_realized_pnl s e = get_realized_pnl bk.
Proof.
  intros e os bk.
  assert (Engine.order_books e !! s = if decide (os = []) then None else Some bk) as H.
  { unfold e, bk, os. rewrite run_ops_books_spec.
    cbn [Engine.new_ExecutionEngine Engine.id_draws Engine.order_books].
    rewrite lookup_empty. generalize (filter (fun x => symbol x = s) (submitted dis cs 0)).
    intros [|x l]; [by rewrite decide_True|by rewrite decide_False]. }
  split; [done|].
  unfold Engine.get_position, Engine.get_average_price, Engine.get_realized_pnl.
  rewrite H. case_decide as Hos; [|done].
  unfold bk. by rewrite Hos.
Qed.

(** * The subscription registry *)

Lemma push_callback_lookup s s' cb m :
  default [] (Engine.push_callback s' cb m !! s)
  = if decide (s' = s) then default [] (m !! s) ++ [cb] else default [] (m !! s).
Proof.
  unfold Engine.push_callback. case_decide as H.
  - subst. by rewrite lookup_insert_eq.
  - by rewrite lookup_insert_ne.
Qed.

Lemma delete_callbacks_lookup s s' (m : gmap string (list nat)) :
  default [] (delete s' m !! s) = if decide (s' = s) then [] else default [] (m !! s).
Proof.
  case_decide as H.
  - subst. by rewrite lookup_delete_eq.
  - by rewrite lookup_delete_ne.
Qed.

(** X3: the callbacks registered for a symbol on a channel are those
    subscribed for it on that channel since its last unsubscription, in
    the order of subscription; unsubscribing drops them all, and calls on
    the other channel, on other symbols or on orders leave them alone. *)
Theorem registry_keeps_subscription_order (dis : nat -> nat) (cs : list Engine.op)
    (e : Engine.ExecutionEngine) (s : string) :
  let e' := (Engine.run_ops dis cs e).1 in
  default [] (Engine.market_data_callbacks e' !! s)
    = market_data_subscribers s cs (default [] (Engine.market_data_callbacks e !! s)) /\
  default [] (Engine.trade_callbacks e' !! s)
    = trade_subscribers s cs (default [] (Engine.trade_callbacks e !! s)).
Proof.
  revert e. induction cs as [|c cs IH]; intros e; [done|].
  cbn [Engine.run_ops].
  destruct (Engine.run_op dis c e) as [e1 calls1] eqn:E1.
  specialize (IH e1).
  destruct (Engine.run_ops dis cs e1) as [e2 calls2]. cbn [fst] in *.
  destruct IH as [IH1 IH2]. rewrite IH1, IH2.
  destruct c as [| |x|s' cb|s'|s' cb|s']; cbn [Engine.run_op] in E1;
    (injection E1 as <- _;
         cbn [market_data_subscribers trade_subscribers Engine.market_data_callbacks
              Engine.trade_callbacks Engine.start Engine.stop Engine.subscribe_market_data
              Engine.unsubscribe_market_data Engine.subscribe_trades
              Engine.unsubscribe_trades];
         by rewrite ?push_callback_lookup, ?delete_callbacks_lookup).
Qed.

(** * Queries that do not return *)

(** X4: [get_unrealized_pnl] of the engine returns, with 0, for the symbols
    that have no book, and does not return for the symbols that have one,
    that is, once an order was submitted for the symbol; the other three
    queries always return. *)
Theorem get_unrealized_pnl_returns_only_without_book (dis : nat -> nat)
    (cs : list Engine.op) (s : string) :
  let e := (Engine.run_ops dis cs Engine.new_ExecutionEngine).1 in
  ((exists x, Engine.SubmitOrder x ∈ cs /\ symbol x = s) ->
     LockedEngine.get_unrealized_pnl s e = Locking.Deadlock) /\
  (~ (exists x, Engine.SubmitOrder x ∈ cs /\ symbol x = s) ->
     LockedEngine.get_unrealized_pnl s e = Locking.Returns 0%float) /\
  LockedEngine.get_position s e = Locking.Returns (Engine.get_position s e) /\
  LockedEngine.get_average_price s e = Locking.Returns (Engine.get_average_price s e) /\
  LockedEngine.get_realized_pnl s e = Locking.Returns (Engine.get_realized_pnl s e).
Proof.
  intros e.
  assert ((exists x, Engine.SubmitOrder x ∈ cs /\ symbol x = s) <->
          is_Some (Engine.order_books e !! s)) as Hiff.
  { unfold e. rewrite run_ops_books_spec.
    cbn [Engine.new_ExecutionEngine Engine.id_draws Engine.order_books].
    rewrite lookup_empty. generalize 0%nat.
    induction cs as [|c cs IH]; intros k.
    - cbn. split; [intros (x & Hx & _); by apply elem_of_nil in Hx|by intros [? ?]].
    - destruct c as [| |x| | | |];
        try (cbn [submitted]; rewrite <-(IH k); split;
             [intros (y & [Hy|Hy]%elem_of_cons & Hs); [done|by exists y]
             |intros (y & Hy & Hs); exists y; split; [by apply list_elem_of_further|done]]).
      cbn [submitted]. rewrite filter_cons. cbn [Engine.with_id symbol].
      case_decide as Hs.
      + split; [by eauto|]. intros _. exists x. split; [apply list_elem_of_here|done].
      + rewrite <-(IH (Engine.generate_order_id dis k).2). split.
        * intros (y & [Hy|Hy]%elem_of_cons & Hys); [by simplify_eq|by exists y].
        * intros (y & Hy & Hys). exists y. split; [by apply list_elem_of_further|done]. }
  unfold LockedEngine.get_unrealized_pnl, LockedEngine.get_position,
    LockedEngine.get_average_price, LockedEngine.get_realized_pnl,
    Engine.get_position, Engine.get_average_price, Engine.get_realized_pnl.
  split_and!.
  - intros [bk Hbk]%Hiff. by rewrite Hbk.
  - intros Hno. destruct (Engine.order_books e !! s) as [bk|] eqn:Hbk; [|done].
    destruct Hno. apply Hiff. by eexists.
  - by destruct (Engine.order_books e !! s).
  - by destruct (Engine.order_books e !! s).
  - by destruct (Engine.order_books e !! s).
Qed.

(** * Market data *)

Lemma filter_calls_same s data (cbs : list nat) :
  md_symbol data = s ->
  filter (fun c => call_symbol c = s) (map (fun cb => CallMarketData cb data) cbs)
  = map (fun cb => CallMarketData cb data) cbs.
Proof.
  intros H. induction cbs as [|cb cbs IH]; [done|].
  cbn [map]. rewrite filter_cons, decide_True by done. by rewrite IH.
Qed.

Lemma filter_calls_other s data (cbs : list nat) :
  md_symbol data <> s ->
  filter (fun c => call_symbol c = s) (map (fun cb => CallMarketData cb data) cbs) = [].
Proof.
  intros H. induction cbs as [|cb cbs IH]; [done|].
  cbn [map]. by rewrite filter_cons, decide_False.
Qed.

Lemma market_data_pass_list (change : string -> double) (now : string)
    (generators : gmap string double) (L : list (string * list nat)) (s : string) :
  NoDup L.*1 ->
  let r := foldr (fun '(s, callbacks) '((gens, calls) : gmap string double * list call) =>
             let '(data, price') :=
               Engine.generate s (default 100%float (gens !! s)) (change s) now in
             (<[s := price']> gens, map (fun cb => CallMarketData cb data) callbacks ++ calls))
           (generators, []) L in
  let tick := (Engine.generate s (default 100%float (generators !! s)) (change s) now).1 in
  (forall cbs, (s, cbs) ∈ L ->
     filter (fun c => call_symbol c = s) r.2 = map (fun cb => CallMarketData cb tick) cbs /\
     r.1 !! s = Some (md_price tick)) /\
  (s ∉ L.*1 ->
     filter (fun c => call_symbol c = s) r.2 = [] /\ r.1 !! s = generators !! s).
Proof.
  induction L as [|[s1 c1] L IH]; intros Hnd.
  - split; [intros cbs Hin; by apply elem_of_nil in Hin|done].
  - cbn [fmap list_fmap fst] in Hnd. apply NoDup_cons in Hnd as [Hs1 Hnd].
    specialize (IH Hnd). cbn [foldr].
    destruct (foldr _ _ L) as [gens calls]. cbn [fst snd] in IH.
    destruct IH as [IHin IHout]. cbn [Engine.generate fst snd].
    split.
    + intros cbs [Hhd|Htl]%elem_of_cons.
      * injection Hhd as <- <-. destruct (IHout Hs1) as [Hf Hg].
        rewrite filter_app, Hf, app_nil_r, filter_calls_same by done.
        by rewrite lookup_insert_eq, Hg.
      * assert (s1 <> s) as Hne.
        { intros ->. apply Hs1, list_elem_of_fmap. by exists (s, cbs). }
        destruct (IHin cbs Htl) as [Hf Hg].
        rewrite filter_app, filter_calls_other by done.
        by rewrite lookup_insert_ne.
    + intros Hout. cbn [fmap list_fmap fst] in Hout.
      apply not_elem_of_cons in Hout as [Hne Hout].
      destruct (IHout Hout) as [Hf Hg].
      rewrite filter_app, filter_calls_other by done.
      by rewrite lookup_insert_ne.
Qed.

(** X5: one pass of the tick loop calls every market-data callback of a
    subscribed symbol once, in the order of subscription, all with the
    same tick: the symbol, the last price of the symbol (100 at first)
    times 1 + change * 0.01, computed in [double], the volume 100 and the
    time; it keeps that price for the next pass.  A symbol without
    subscribers gets no call and keeps its last price. *)
Theorem market_data_pass_calls_subscribers (change : string -> double) (now : string)
    (generators : gmap string double) (e : Engine.ExecutionEngine) (s : string) :
  let r := Engine.market_data_pass change now generators e in
  let tick :=
    mkMarketData s (default 100 (generators !! s) * (1 + change s * one_percent))%float
      100 now in
  match Engine.market_data_callbacks e !! s with
  | Some cbs =>
      filter (fun c => call_symbol c = s) r.2 = map (fun cb => CallMarketData cb tick) cbs /\
      r.1 !! s = Some (md_price tick)
  | None =>
      filter (fun c => call_symbol c = s) r.2 = [] /\ r.1 !! s = generators !! s
  end.
Proof.
  intros r tick.
  pose proof (market_data_pass_list change now generators
    (map_to_list (Engine.market_data_callbacks e)) s
    (NoDup_fst_map_to_list _)) as [Hin Hout].
  destruct (Engine.market_data_callbacks e !! s) as [cbs|] eqn:E.
  - apply (Hin cbs). by apply elem_of_map_to_list.
  - apply Hout. intros [[s' cbs] [Hs Hin']]%list_elem_of_fmap. cbn in Hs. subst s'.
    apply elem_of_map_to_list in Hin'. unfold MarketDataCallback in *. congruence.
Qed.

(** * Orders that rest, and what rests *)

Lemma match_orders_at_exit bk : match_step bk = None -> match_orders bk = bk.
Proof.
  intros H. unfold match_orders. destruct (book_size bk); [done|].
  cbn [match_orders_loop]. by rewrite H.
Qed.

Lemma pq_top_elem {A} (c : list A) t : pq_top c = Some t -> t ∈ c.
Proof. intros [c' ->]%pq_top_cons. apply list_elem_of_here. Qed.

(** The loop has nothing to do after the push of an order that does not
    cross: the top of its side is the old top or the order, and neither
    crosses the top of the other side. *)
Lemma push_order_uncrossed os s x :
  let bk := run_orders os (new_OrderBook s) in
  (if is_buy x then forall a, a ∈ sell_orders bk -> (price x <? price a)%float = true
   else forall b, b ∈ buy_orders bk -> (price b <? price x)%float = true) ->
  match_step (push_order x bk) = None.
Proof.
  intros bk Hx. pose proof (run_orders_exit os s) as Hexit. fold bk in Hexit.
  unfold match_step in *. unfold push_order.
  destruct (is_buy x); cbn [buy_orders sell_orders].
  - destruct (proj1 (pq_push_top OrderCompare x (buy_orders bk))) as [-> | ->].
    + destruct (pq_top (sell_orders bk)) as [ta|] eqn:Ea; [|done].
      by rewrite (double_ltb_not_leb (price x) (price ta)) by (by apply Hx, pq_top_elem).
    + destruct (pq_top (buy_orders bk)) as [tb|]; [|done].
      destruct (pq_top (sell_orders bk)) as [ta|]; [|done].
      by destruct (price ta <=? price tb)%float.
  - destruct (proj1 (pq_push_top OrderCompare x (sell_orders bk))) as [-> | ->].
    + destruct (pq_top (buy_orders bk)) as [tb|] eqn:Eb; [|done].
      by rewrite (double_ltb_not_leb (price tb) (price x)) by (by apply Hx, pq_top_elem).
    + destruct (pq_top (buy_orders bk)) as [tb|]; [|done].
      destruct (pq_top (sell_orders bk)) as [ta|]; [|done].
      by destruct (price ta <=? price tb)%float.
Qed.

(** X7: an order that does not cross the book rests without a fill: a buy
    priced below every resting sell, or a sell priced above every resting
    buy, is added to its side and nothing else changes; the position, the
    average price, the realized P&L and the other side are as before. *)
Theorem uncrossing_order_rests (os : list Order) (s : string) (x : Order) :
  let bk := run_orders os (new_OrderBook s) in
  (if is_buy x then forall a, a ∈ sell_orders bk -> (price x <? price a)%float = true
   else forall b, b ∈ buy_orders bk -> (price b <? price x)%float = true) ->
  position_ (add_order x bk) = position_ bk /\
  average_price_ (add_order x bk) = average_price_ bk /\
  realized_pnl_ (add_order x bk) = realized_pnl_ bk /\
  (if is_buy x
   then buy_orders (add_order x bk) ≡ₚ x :: buy_orders bk /\
        sell_orders (add_order x bk) = sell_orders bk
   else sell_orders (add_order x bk) ≡ₚ x :: sell_orders bk /\
        buy_orders (add_order x bk) = buy_orders bk).
Proof.
  intros bk Hx. unfold add_order.
  rewrite match_orders_at_exit by (by apply push_order_uncrossed).
  unfold push_order. destruct (is_buy x); cbn [position_ average_price_ realized_pnl_
    buy_orders sell_orders]; split_and!; try done; apply pq_push_perm.
Qed.

Lemma uncrossing_order_rests_witness :
  let bk := run_orders [order "s1" 100 50 false] (new_OrderBook "AAPL") in
  let x := order "b1" 99 10 true in
  position_ (add_order x bk) = position_ bk /\
  average_price_ (add_order x bk) = average_price_ bk /\
  realized_pnl_ (add_order x bk) = realized_pnl_ bk /\
  (if is_buy x
   then buy_orders (add_order x bk) ≡ₚ x :: buy_orders bk /\
        sell_orders (add_order x bk) = sell_orders bk
   else sell_orders (add_order x bk) ≡ₚ x :: sell_orders bk /\
        buy_orders (add_order x bk) = buy_orders bk).
Proof.
  apply (uncrossing_order_rests [order "s1" 100 50 false] "AAPL" (order "b1" 99 10 true)).
  intros a Ha. apply list_elem_of_singleton in Ha as ->. by vm_compute.
Defined.

Lemma same_order_refl o : same_order o o.
Proof. by repeat split. Qed.

Lemma same_order_trans o1 o2 o3 : same_order o1 o2 -> same_order o2 o3 -> same_order o1 o3.
Proof. intros (?&?&?&?) (?&?&?&?). repeat split; congruence. Qed.

Lemma same_order_sub_quantity o m : same_order (sub_quantity o m) o.
Proof. by repeat split. Qed.

(** An order in a queue after a fill is the top of the queue before it,
    with less quantity, or another order of the queue before it. *)
Lemma fill_queue_elem t c m o' :
  o' ∈ (if quantity t =? m then pq_pop OrderCompare (t :: c)
        else <[0%nat := sub_quantity t m]> (t :: c)) ->
  (quantity t <> m /\ o' = sub_quantity t m) \/ o' ∈ c.
Proof.
  destruct (quantity t =? m) eqn:E.
  - rewrite pq_pop_perm. by right.
  - apply Z.eqb_neq in E. cbn [insert list_insert].
    intros [->|H]%elem_of_cons; [by left|by right].
Qed.

Lemma match_step_same_orders bk bk' :
  match_step bk = Some bk' ->
  (forall o', o' ∈ buy_orders bk' -> exists o, o ∈ buy_orders bk /\ same_order o' o) /\
  (forall o', o' ∈ sell_orders bk' -> exists o, o ∈ sell_orders bk /\ same_order o' o).
Proof.
  intros H. destruct (match_step_inv _ _ H) as (buy & sell & Hb & Hs & Hle).
  rewrite (match_step_Some bk buy sell Hb Hs Hle) in H. injection H as <-.
  apply pq_top_cons in Hb as [bs Eb]. apply pq_top_cons in Hs as [ss Es].
  rewrite Eb, Es. cbn [buy_orders sell_orders].
  split; intros o' [[_ ->]|Hin]%fill_queue_elem.
  - exists buy. split; [apply list_elem_of_here|apply same_order_sub_quantity].
  - exists o'. split; [by apply list_elem_of_further|apply same_order_refl].
  - exists sell. split; [apply list_elem_of_here|apply same_order_sub_quantity].
  - exists o'. split; [by apply list_elem_of_further|apply same_order_refl].
Qed.

Lemma match_orders_loop_same_orders n bk :
  (forall o', o' ∈ buy_orders (match_orders_loop n bk) ->
     exists o, o ∈ buy_orders bk /\ same_order o' o) /\
  (forall o', o' ∈ sell_orders (match_orders_loop n bk) ->
     exists o, o ∈ sell_orders bk /\ same_order o' o).
Proof.
  revert bk. induction n as [|n IH]; intros bk; cbn [match_orders_loop].
  { split; intros o' H; exists o'; eauto using same_order_refl. }
  destruct (match_step bk) as [bk'|] eqn:E.
  2:{ split; intros o' H; exists o'; eauto using same_order_refl. }
  destruct (match_step_same_orders bk bk' E) as [S1 S2].
  destruct (IH bk') as [I1 I2].
  split; intros o' H.
  - destruct (I1 o' H) as (o1 & H1 & R1). destruct (S1 o1 H1) as (o2 & H2 & R2).
    exists o2. eauto using same_order_trans.
  - destruct (I2 o' H) as (o1 & H1 & R1). destruct (S2 o1 H1) as (o2 & H2 & R2).
    exists o2. eauto using same_order_trans.
Qed.

Lemma add_order_same_orders x bk :
  (forall o', o' ∈ buy_orders (add_order x bk) ->
     exists o, (o = x \/ o ∈ buy_orders bk) /\ same_order o' o) /\
  (forall o', o' ∈ sell_orders (add_order x bk) ->
     exists o, (o = x \/ o ∈ sell_orders bk) /\ same_order o' o).
Proof.
  unfold add_order, match_orders.
  destruct (match_orders_loop_same_orders (book_size (push_order x bk)) (push_order x bk))
    as [I1 I2].
  split; intros o' H.
  - destruct (I1 o' H) as (o1 & H1 & R1). exists o1. split; [|done].
    unfold push_order in H1. destruct (is_buy x); cbn [buy_orders] in H1; [|by right].
    rewrite pq_push_perm in H1. by apply elem_of_cons in H1.
  - destruct (I2 o' H) as (o1 & H1 & R1). exists o1. split; [|done].
    unfold push_order in H1. destruct (is_buy x); cbn [sell_orders] in H1; [by right|].
    rewrite pq_push_perm in H1. by apply elem_of_cons in H1.
Qed.

(** X8: matching invents no order and alters none but in its quantity: after
    any sequence of [add_order] calls every resting order is one of the
    submitted orders, with its id, symbol, price and side, and it rests on
    the side it was submitted for. *)
Theorem resting_orders_are_submitted_orders (os : list Order) (s : string) :
  let bk := run_orders os (new_OrderBook s) in
  (forall o', o' ∈ buy_orders bk ->
     is_buy o' = true /\ exists o, o ∈ os /\ same_order o' o) /\
  (forall o', o' ∈ sell_orders bk ->
     is_buy o' = false /\ exists o, o ∈ os /\ same_order o' o).
Proof.
  intros bk.
  pose proof (run_orders_sides os (new_OrderBook s) (new_OrderBook_sides s)) as [Hb Hs].
  fold bk in Hb, Hs. rewrite Forall_forall in Hb, Hs.
  cut ((forall o', o' ∈ buy_orders bk -> exists o, o ∈ os /\ same_order o' o) /\
       (forall o', o' ∈ sell_orders bk -> exists o, o ∈ os /\ same_order o' o)).
  { intros [H1 H2]. split; intros o' H; (split; [|by auto]).
    - by apply Hb.
    - by apply Hs. }
  unfold bk. clear. induction os as [|x os IH] using rev_ind.
  { split; intros o' H; by apply elem_of_nil in H. }
  rewrite run_orders_snoc. destruct IH as [I1 I2].
  destruct (add_order_same_orders x (run_orders os (new_OrderBook s))) as [A1 A2].
  split; intros o' H.
  - destruct (A1 o' H) as (o1 & [->|H1] & R1).
    + exists x. split; [apply elem_of_app; right; apply list_elem_of_here|done].
    + destruct (I1 o1 H1) as (o2 & H2 & R2). exists o2.
      split; [apply elem_of_app; by left|by eapply same_order_trans].
  - destruct (A2 o' H) as (o1 & [->|H1] & R1).
    + exists x. split; [apply elem_of_app; right; apply list_elem_of_here|done].
    + destruct (I2 o1 H1) as (o2 & H2 & R2). exists o2.
      split; [apply elem_of_app; by left|by eapply same_order_trans].
Qed.

(** * Conservation of quantity *)

Lemma volume_ok_tops V bk buy sell :
  volume_ok V bk -> pq_top (buy_orders bk) = Some buy -> pq_top (sell_orders bk) = Some sell ->
  0 < matched_quantity buy sell /\
  matched_quantity buy sell <= quantity buy <= INT_MAX /\
  matched_quantity buy sell <= quantity sell <= INT_MAX.
Proof.
  intros [Hb Hs _ _ _] [bs Eb]%pq_top_cons [ss Es]%pq_top_cons.
  rewrite Eb in Hb. rewrite Es in Hs.
  apply Forall_cons_1 in Hb as [Hbuy _]. apply Forall_cons_1 in Hs as [Hsell _]. int_lia.
Qed.

Lemma sub_quantity_exact t m :
  0 < m <= quantity t -> quantity t <= INT_MAX ->
  quantity (sub_quantity t m) = quantity t - m.
Proof. intros H1 H2. unfold sub_quantity. cbn [quantity]. apply int_wrap_id. int_lia. Qed.

Lemma sum_quantity_fill t c m :
  0 < m <= quantity t -> quantity t <= INT_MAX ->
  sum_quantity (if quantity t =? m then pq_pop OrderCompare (t :: c)
                else <[0%nat := sub_quantity t m]> (t :: c))
  = sum_quantity (t :: c) - m.
Proof.
  intros H1 H2. destruct (quantity t =? m) eqn:E.
  - apply Z.eqb_eq in E. rewrite pq_pop_perm. simpl. lia.
  - cbn [insert list_insert sum_quantity foldr]. rewrite sub_quantity_exact by done. lia.
Qed.

Lemma match_step_sells V bk bk' :
  volume_ok V bk -> match_step bk = Some bk' ->
  position_ bk' + sum_quantity (sell_orders bk')
  = position_ bk + sum_quantity (sell_orders bk).
Proof.
  intros Hok H. destruct (match_step_volume V bk bk' Hok H) as [[_ _ _ Hsum' _] _].
  destruct Hok as [Hb Hs Hpos Hsum Hmax].
  destruct (match_step_inv _ _ H) as (buy & sell & Htb & Hts & Hle).
  destruct (volume_ok_tops V bk buy sell (mk_volume_ok V bk Hb Hs Hpos Hsum Hmax) Htb Hts)
    as (Hm & Hq1 & Hq2).
  rewrite (match_step_Some bk buy sell Htb Hts Hle) in H. injection H as <-.
  apply pq_top_cons in Htb as [bs Eb]. apply pq_top_cons in Hts as [ss Es].
  rewrite Eb, Es in *. cbn [position_ buy_orders sell_orders] in *.
  rewrite !sum_quantity_fill in * by lia. lia.
Qed.

Lemma match_orders_loop_sells n V bk :
  volume_ok V bk ->
  position_ (match_orders_loop n bk) + sum_quantity (sell_orders (match_orders_loop n bk))
  = position_ bk + sum_quantity (sell_orders bk).
Proof.
  revert bk. induction n as [|n IH]; intros bk Hok; cbn [match_orders_loop]; [done|].
  destruct (match_step bk) as [bk'|] eqn:E; [|done].
  destruct (match_step_volume V bk bk' Hok E) as [Hok' _].
  rewrite (IH bk' Hok'). by eapply match_step_sells.
Qed.

Lemma sell_volume_snoc os x :
  sell_volume (os ++ [x]) = sell_volume os + (if is_buy x then 0 else quantity x).
Proof.
  unfold sell_volume. induction os as [|y os IH]; simpl.
  - destruct (is_buy x); lia.
  - rewrite IH. destruct (is_buy y); lia.
Qed.

Lemma sum_quantity_volumes os : sum_quantity os = buy_volume os + sell_volume os.
Proof.
  unfold sum_quantity, buy_volume, sell_volume.
  induction os as [|y os IH]; simpl; [done|]. rewrite IH. destruct (is_buy y); lia.
Qed.

Lemma buy_volume_prefix os x :
  positive_quantity x -> buy_volume (os ++ [x]) <= INT_MAX -> buy_volume os <= INT_MAX.
Proof.
  rewrite buy_volume_snoc. unfold positive_quantity. destruct (is_buy x); lia.
Qed.

Lemma run_orders_sells os s :
  Forall positive_quantity os -> buy_volume os <= INT_MAX ->
  let bk := run_orders os (new_OrderBook s) in
  position_ bk + sum_quantity (sell_orders bk) = sell_volume os.
Proof.
  induction os as [|x os IH] using rev_ind; intros Hq HV; [done|].
  apply Forall_app in Hq as [Hos Hx]. rewrite Forall_singleton in Hx.
  pose proof (buy_volume_prefix os x Hx HV) as HV'.
  specialize (IH Hos HV'). cbn zeta in *.
  rewrite run_orders_snoc, sell_volume_snoc. unfold add_order, match_orders.
  rewrite buy_volume_snoc in HV.
  pose proof (push_order_volume _ x _ (run_orders_volume os s Hos HV') Hx HV) as Hpush.
  rewrite (match_orders_loop_sells _ _ _ Hpush).
  unfold push_order. destruct (is_buy x); cbn [position_ sell_orders]; [lia|].
  rewrite pq_push_perm. simpl. fold (sum_quantity (sell_orders (run_orders os (new_OrderBook s)))).
  lia.
Qed.

(** X9: quantity is neither made nor lost: with orders of positive quantity
    whose total buy quantity fits an [int], every fill takes the matched
    quantity off both sides, so the quantity resting on the two sides plus
    twice the position is the quantity submitted, and the position, the
    matched volume, exceeds neither the buy nor the sell quantity
    submitted. *)
Theorem quantity_is_conserved (os : list Order) (s : string) :
  Forall positive_quantity os -> buy_volume os <= INT_MAX ->
  let bk := run_orders os (new_OrderBook s) in
  sum_quantity (buy_orders bk) + sum_quantity (sell_orders bk) + 2 * get_position bk
    = sum_quantity os /\
  get_position bk = sell_volume os - sum_quantity (sell_orders bk) /\
  0 <= get_position bk <= Z.min (buy_volume os) (sell_volume os).
Proof.
  intros Hq HV bk. subst bk.
  pose proof (run_orders_sells os s Hq HV) as Hsell. cbv zeta in Hsell.
  pose proof (run_orders_volume os s Hq HV) as [Hb Hs Hpos Hsum _].
  pose proof (sum_quantity_nonneg _ Hb). pose proof (sum_quantity_nonneg _ Hs).
  rewrite (sum_quantity_volumes os). unfold get_position. lia.
Qed.

Lemma quantity_is_conserved_witness :
  let os := [order "s1" 100 50 false; order "b1" 105 100 true; order "s2" 95 30 false] in
  let bk := run_orders os (new_OrderBook "AAPL") in
  sum_quantity (buy_orders bk) + sum_quantity (sell_orders bk) + 2 * get_position bk
    = sum_quantity os /\
  get_position bk = sell_volume os - sum_quantity (sell_orders bk) /\
  0 <= get_position bk <= Z.min (buy_volume os) (sell_volume os).
Proof.
  apply (quantity_is_conserved
    [order "s1" 100 50 false; order "b1" 105 100 true; order "s2" 95 30 false] "AAPL").
  - repeat constructor; vm_compute; congruence.
  - vm_compute. congruence.
Defined.

Lemma match_step_remaining V bk bk' :
  volume_ok V bk -> match_step bk = Some bk' ->
  (forall o', o' ∈ buy_orders bk' ->
     exists o, o ∈ buy_orders bk /\ same_order o' o /\ quantity o' <= quantity o) /\
  (forall o', o' ∈ sell_orders bk' ->
     exists o, o ∈ sell_orders bk /\ same_order o' o /\ quantity o' <= quantity o).
Proof.
  intros Hok H. destruct (match_step_inv _ _ H) as (buy & sell & Hb & Hs & Hle).
  destruct (volume_ok_tops V bk buy sell Hok Hb Hs) as (Hm & Hq1 & Hq2).
  rewrite (match_step_Some bk buy sell Hb Hs Hle) in H. injection H as <-.
  apply pq_top_cons in Hb as [bs Eb]. apply pq_top_cons in Hs as [ss Es].
  rewrite Eb, Es. cbn [buy_orders sell_orders].
  split; intros o' [[_ ->]|Hin]%fill_queue_elem.
  - exists buy. rewrite sub_quantity_exact by lia.
    (split; [|split]); [apply list_elem_of_here|apply same_order_sub_quantity|lia].
  - exists o'. (split; [|split]); [by apply list_elem_of_further|apply same_order_refl|lia].
  - exists sell. rewrite sub_quantity_exact by lia.
    (split; [|split]); [apply list_elem_of_here|apply same_order_sub_quantity|lia].
  - exists o'. (split; [|split]); [by apply list_elem_of_further|apply same_order_refl|lia].
Qed.

Lemma match_orders_loop_remaining n V bk :
  volume_ok V bk ->
  (forall o', o' ∈ buy_orders (match_orders_loop n bk) ->
     exists o, o ∈ buy_orders bk /\ same_order o' o /\ quantity o' <= quantity o) /\
  (forall o', o' ∈ sell_orders (match_orders_loop n bk) ->
     exists o, o ∈ sell_orders bk /\ same_order o' o /\ quantity o' <= quantity o).
Proof.
  revert bk. induction n as [|n IH]; intros bk Hok; cbn [match_orders_loop].
  { split; intros o' H; exists o'; ((split; [|split]); [done|apply same_order_refl|lia]). }
  destruct (match_step bk) as [bk'|] eqn:E.
  2:{ split; intros o' H; exists o'; ((split; [|split]); [done|apply same_order_refl|lia]). }
  destruct (match_step_volume V bk bk' Hok E) as [Hok' _].
  destruct (match_step_remaining V bk bk' Hok E) as [S1 S2].
  destruct (IH bk' Hok') as [I1 I2].
  split; intros o' H.
  - destruct (I1 o' H) as (o1 & H1 & R1 & Q1). destruct (S1 o1 H1) as (o2 & H2 & R2 & Q2).
    exists o2. (split; [|split]); [done|by eapply same_order_trans|lia].
  - destruct (I2 o' H) as (o1 & H1 & R1 & Q1). destruct (S2 o1 H1) as (o2 & H2 & R2 & Q2).
    exists o2. (split; [|split]); [done|by eapply same_order_trans|lia].
Qed.

(** X10: with orders of positive quantity whose total buy quantity fits an
    [int], what rests of an order is a positive part of it: every resting
    order is a submitted order with a remaining quantity above 0 and at
    most the quantity submitted, so no filled order stays in the book. *)
Theorem remaining_quantity_is_positive_part (os : list Order) (s : string) :
  Forall positive_quantity os -> buy_volume os <= INT_MAX ->
  let bk := run_orders os (new_OrderBook s) in
  forall o', o' ∈ buy_orders bk ++ sell_orders bk ->
    exists o, o ∈ os /\ same_order o' o /\ 0 < quantity o' <= quantity o.
Proof.
  intros Hq HV bk.
  pose proof (run_orders_volume os s Hq HV) as [Hb Hs _ _ _]. fold bk in Hb, Hs.
  rewrite Forall_forall in Hb, Hs.
  cut ((forall o', o' ∈ buy_orders bk ->
          exists o, o ∈ os /\ same_order o' o /\ quantity o' <= quantity o) /\
       (forall o', o' ∈ sell_orders bk ->
          exists o, o ∈ os /\ same_order o' o /\ quantity o' <= quantity o)).
  { intros [H1 H2] o' [H|H]%elem_of_app.
    - destruct (H1 o' H) as (o & ? & ? & ?). exists o. specialize (Hb o' H).
      unfold positive_quantity in Hb. (split; [|split]); [done|done|lia].
    - destruct (H2 o' H) as (o & ? & ? & ?). exists o. specialize (Hs o' H).
      unfold positive_quantity in Hs. (split; [|split]); [done|done|lia]. }
  unfold bk. clear Hb Hs bk. induction os as [|x os IH] using rev_ind.
  { split; intros o' H; by apply elem_of_nil in H. }
  apply Forall_app in Hq as [Hos Hx]. rewrite Forall_singleton in Hx.
  pose proof (buy_volume_prefix os x Hx HV) as HV'.
  destruct (IH Hos HV') as [I1 I2]. clear IH.
  rewrite run_orders_snoc. unfold add_order, match_orders.
  rewrite buy_volume_snoc in HV.
  pose proof (push_order_volume _ x _ (run_orders_volume os s Hos HV') Hx HV) as Hpush.
  destruct (match_orders_loop_remaining
    (book_size (push_order x (run_orders os (new_OrderBook s)))) _ _ Hpush) as [L1 L2].
  split; intros o' H.
  - destruct (L1 o' H) as (o1 & H1 & R1 & Q1).
    unfold push_order in H1. destruct (is_buy x); cbn [buy_orders] in H1.
    + rewrite pq_push_perm in H1. apply elem_of_cons in H1 as [->|H1].
      * exists x. (split; [|split]); [apply elem_of_app; right; apply list_elem_of_here|done|done].
      * destruct (I1 o1 H1) as (o2 & H2 & R2 & Q2). exists o2.
        (split; [|split]); [apply elem_of_app; by left|by eapply same_order_trans|lia].
    + destruct (I1 o1 H1) as (o2 & H2 & R2 & Q2). exists o2.
      (split; [|split]); [apply elem_of_app; by left|by eapply same_order_trans|lia].
  - destruct (L2 o' H) as (o1 & H1 & R1 & Q1).
    unfold push_order in H1. destruct (is_buy x); cbn [sell_orders] in H1.
    + destruct (I2 o1 H1) as (o2 & H2 & R2 & Q2). exists o2.
      (split; [|split]); [apply elem_of_app; by left|by eapply same_order_trans|lia].
    + rewrite pq_push_perm in H1. apply elem_of_cons in H1 as [->|H1].
      * exists x. (split; [|split]); [apply elem_of_app; right; apply list_elem_of_here|done|done].
      * destruct (I2 o1 H1) as (o2 & H2 & R2 & Q2). exists o2.
        (split; [|split]); [apply elem_of_app; by left|by eapply same_order_trans|lia].
Qed.

Lemma remaining_quantity_is_positive_part_witness :
  let os := [order "s1" 100 50 false; order "b1" 105 100 true] in
  let rest := order "b1" 105 50 true in
  exists o, o ∈ os /\ same_order rest o /\ 0 < quantity rest <= quantity o.
Proof.
  apply (remaining_quantity_is_positive_part
    [order "s1" 100 50 false; order "b1" 105 100 true] "AAPL").
  - repeat constructor; vm_compute; congruence.
  - vm_compute. congruence.
  - vm_compute. left.
Defined.

(** * Prices *)

(** X12: with orders whose prices are not NaN, after any sequence of
    [add_order] calls [get_best_bid] is the highest price of the resting
    buy orders and [get_best_ask] the lowest price of the resting sell
    orders; for an empty side they are 0. *)
Theorem best_prices_are_best (os : list Order) (s : string) :
  Forall priced os ->
  let bk := run_orders os (new_OrderBook s) in
  (forall b, b ∈ buy_orders bk -> (price b <=? get_best_bid bk)%float = true) /\
  (forall a, a ∈ sell_orders bk -> (get_best_ask bk <=? price a)%float = true) /\
  match buy_orders bk with
  | [] => get_best_bid bk = 0%float
  | _ => exists b, b ∈ buy_orders bk /\ get_best_bid bk = price b
  end /\
  match sell_orders bk with
  | [] => get_best_ask bk = 0%float
  | _ => exists a, a ∈ sell_orders bk /\ get_best_ask bk = price a
  end.
Proof.
  intros Hos bk.
  destruct (book_ok_tops bk) as [Hb Hs].
  { by apply run_orders_ok, new_OrderBook_ok. }
  unfold get_best_bid, get_best_ask. split_and!.
  - intros b Hin. destruct (buy_orders bk) as [|t c] eqn:E; [by apply elem_of_nil in Hin|].
    by apply Hb.
  - intros a Hin. destruct (sell_orders bk) as [|t c] eqn:E; [by apply elem_of_nil in Hin|].
    by apply Hs.
  - destruct (buy_orders bk) as [|t c]; [done|]. exists t. split; [apply list_elem_of_here|done].
  - destruct (sell_orders bk) as [|t c]; [done|]. exists t. split; [apply list_elem_of_here|done].
Qed.

Lemma best_prices_are_best_witness :
  let bk := run_orders [order "b1" 99 10 true; order "b2" 101 10 true; order "b3" 100 10 true;
                        order "s1" 104 10 false; order "s2" 102 10 false;
                        order "s3" 103 10 false] (new_OrderBook "AAPL") in
  (forall b, b ∈ buy_orders bk -> (price b <=? get_best_bid bk)%float = true) /\
  (forall a, a ∈ sell_orders bk -> (get_best_ask bk <=? price a)%float = true) /\
  match buy_orders bk with
  | [] => get_best_bid bk = 0%float
  | _ => exists b, b ∈ buy_orders bk /\ get_best_bid bk = price b
  end /\
  match sell_orders bk with
  | [] => get_best_ask bk = 0%float
  | _ => exists a, a ∈ sell_orders bk /\ get_best_ask bk = price a
  end.
Proof.
  apply (best_prices_are_best
    [order "b1" 99 10 true; order "b2" 101 10 true; order "b3" 100 10 true;
     order "s1" 104 10 false; order "s2" 102 10 false; order "s3" 103 10 false] "AAPL").
  repeat constructor.
Defined.

(** * An order without a price

    A [double] price can be NaN, and nothing checks it. *)

Lemma OrderCompare_nan t x : PrimFloat.is_nan (price t) = true -> OrderCompare t x = false.
Proof.
  intros H. unfold OrderCompare. destruct (is_buy t); apply double_nan_ltb; auto.
Qed.

Lemma add_order_nan_top x bk t :
  PrimFloat.is_nan (price t) = true ->
  (pq_top (buy_orders bk) = Some t -> 
     add_order x bk = push_order x bk /\ pq_top (buy_orders (push_order x bk)) = Some t) /\
  (pq_top (sell_orders bk) = Some t ->
     add_order x bk = push_order x bk /\ pq_top (sell_orders (push_order x bk)) = Some t).
Proof.
  intros Hnan.
  pose proof (OrderCompare_nan t x Hnan) as Hc.
  split; intros Ht.
  - assert (pq_top (buy_orders (push_order x bk)) = Some t) as Htop.
    { unfold push_order. destruct (is_buy x); cbn [buy_orders]; [|done].
      by apply pq_push_top. }
    split; [|done]. apply match_orders_at_exit. unfold match_step. rewrite Htop.
    destruct (pq_top (sell_orders (push_order x bk))) as [ta|]; [|done].
    by rewrite double_nan_leb by auto.
  - assert (pq_top (sell_orders (push_order x bk)) = Some t) as Htop.
    { unfold push_order. destruct (is_buy x); cbn [sell_orders]; [done|].
      by apply pq_push_top. }
    split; [|done]. apply match_orders_at_exit. unfold match_step. rewrite Htop.
    destruct (pq_top (buy_orders (push_order x bk))) as [tb|]; [|done].
    by rewrite double_nan_leb by auto.
Qed.

Lemma push_order_queues x bk :
  position_ (push_order x bk) = position_ bk /\
  average_price_ (push_order x bk) = average_price_ bk /\
  realized_pnl_ (push_order x bk) = realized_pnl_ bk /\
  buy_orders (push_order x bk) ≡ₚ buy_orders bk ++ filter (fun y => is_buy y = true) [x] /\
  sell_orders (push_order x bk) ≡ₚ sell_orders bk ++ filter (fun y => is_buy y = false) [x].
Proof.
  unfold push_order. destruct (is_buy x) eqn:E;
    cbn [position_ average_price_ realized_pnl_ buy_orders sell_orders];
    rewrite !filter_cons, filter_nil, E; cbn; rewrite ?app_nil_r;
    split_and!; try done; by rewrite pq_push_perm, Permutation_cons_append.
Qed.

(** X17: an order whose price is NaN, once on top of its side, stops the
    book.  Every comparison with NaN is false, so no order pushed later
    passes it in its queue and the matching loop breaks at its first test:
    whatever is submitted afterwards rests unmatched on its side, the
    NaN order stays on top, and the position, the average price and the
    realized P&L never change again. *)
Theorem nan_on_top_stops_matching (bk : OrderBook) (t : Order) (os : list Order) :
  pq_top (buy_orders bk) = Some t \/ pq_top (sell_orders bk) = Some t ->
  PrimFloat.is_nan (price t) = true ->
  let bk' := run_orders os bk in
  (pq_top (buy_orders bk) = Some t -> pq_top (buy_orders bk') = Some t) /\
  (pq_top (sell_orders bk) = Some t -> pq_top (sell_orders bk') = Some t) /\
  match_step bk' = None /\
  position_ bk' = position_ bk /\
  average_price_ bk' = average_price_ bk /\
  realized_pnl_ bk' = realized_pnl_ bk /\
  buy_orders bk' ≡ₚ buy_orders bk ++ filter (fun y => is_buy y = true) os /\
  sell_orders bk' ≡ₚ sell_orders bk ++ filter (fun y => is_buy y = false) os.
Proof.
  intros Htop Hnan. revert bk Htop. induction os as [|x os IH]; intros bk Htop bk'.
  { unfold bk'. cbn [run_orders fold_left]. rewrite !filter_nil, !app_nil_r.
    split_and!; try done. unfold match_step.
    destruct Htop as [-> | ->].
    - destruct (pq_top (sell_orders bk)); [|done]. by rewrite double_nan_leb by auto.
    - destruct (pq_top (buy_orders bk)); [|done]. by rewrite double_nan_leb by auto. }
  unfold bk'. rewrite run_orders_cons.
  destruct (add_order_nan_top x bk t Hnan) as [Hb Hs].
  destruct (push_order_queues x bk) as (P1 & P2 & P3 & P4 & P5).
  assert (add_order x bk = push_order x bk) as E.
  { destruct Htop as [H|H]; [by apply Hb|by apply Hs]. }
  destruct (IH (add_order x bk)) as (I1 & I2 & I3 & I4 & I5 & I6 & I7 & I8).
  { rewrite E. destruct Htop as [H|H]; [left; by apply Hb|right; by apply Hs]. }
  rewrite E in *.
  split_and!.
  - intros H. by apply I1, Hb.
  - intros H. by apply I2, Hs.
  - done.
  - by rewrite I4.
  - by rewrite I5.
  - by rewrite I6.
  - rewrite I7, P4, <-app_assoc. by rewrite <-filter_app.
  - rewrite I8, P5, <-app_assoc. by rewrite <-filter_app.
Qed.

Lemma nan_on_top_stops_matching_witness :
  let bk := run_orders [order "n" nan 10 false] (new_OrderBook "AAPL") in
  let t := order "n" nan 10 false in
  let os := [order "s" 90 10 false; order "b" 100 10 true] in
  let bk' := run_orders os bk in
  (pq_top (buy_orders bk) = Some t -> pq_top (buy_orders bk') = Some t) /\
  (pq_top (sell_orders bk) = Some t -> pq_top (sell_orders bk') = Some t) /\
  match_step bk' = None /\
  position_ bk' = position_ bk /\
  average_price_ bk' = average_price_ bk /\
  realized_pnl_ bk' = realized_pnl_ bk /\
  buy_orders bk' ≡ₚ buy_orders bk ++ filter (fun y => is_buy y = true) os /\
  sell_orders bk' ≡ₚ sell_orders bk ++ filter (fun y => is_buy y = false) os.
Proof.
  apply (nan_on_top_stops_matching
    (run_orders [order "n" nan 10 false] (new_OrderBook "AAPL")) (order "n" nan 10 false)
    [order "s" 90 10 false; order "b" 100 10 true]).
  - right. reflexivity.
  - reflexivity.
Defined.

(** * The tick thread *)

Lemma lifecycle_invariant cs t t' :
  Lifecycle.running t = Lifecycle.joinable t ->
  Lifecycle.run cs t = Lifecycle.Ok t' ->
  Lifecycle.running t' = Lifecycle.joinable t'.
Proof.
  revert t. induction cs as [|[|] cs IH]; intros t Ht; cbn [Lifecycle.run].
  - by intros [= <-].
  - unfold Lifecycle.start. destruct (Lifecycle.joinable t); [done|]. by apply IH.
  - apply IH. unfold Lifecycle.stop. rewrite Ht.
    by destruct (Lifecycle.joinable t).
Qed.

(** X14: after any sequence of [start] and [stop] calls that the process
    survives, the thread is joinable exactly when the engine is running.
    [start] on a running engine ends the process with [std::terminate],
    since it assigns a thread to the joinable [market_data_thread]; on a
    stopped engine it starts one.  [stop] stops the engine, twice as
    well as once, and the destructor never terminates the process. *)
Theorem start_on_running_engine_terminates (cs : list bool) (t : Lifecycle.threads) :
  Lifecycle.run cs Lifecycle.new_threads = Lifecycle.Ok t ->
  Lifecycle.running t = Lifecycle.joinable t /\
  (Lifecycle.running t = true -> Lifecycle.start t = Lifecycle.Terminate) /\
  (Lifecycle.running t = false ->
     Lifecycle.start t = Lifecycle.Ok (Lifecycle.mkThreads true true)) /\
  Lifecycle.stop t = Lifecycle.mkThreads false false /\
  Lifecycle.stop (Lifecycle.stop t) = Lifecycle.stop t /\
  Lifecycle.destroy t = Lifecycle.Ok ().
Proof.
  intros H. pose proof (lifecycle_invariant cs Lifecycle.new_threads t eq_refl H) as Hinv.
  destruct t as [[|] [|]]; try discriminate Hinv; by repeat split.
Qed.

Lemma start_on_running_engine_terminates_witness :
  let t := Lifecycle.mkThreads true true in
  Lifecycle.running t = Lifecycle.joinable t /\
  (Lifecycle.running t = true -> Lifecycle.start t = Lifecycle.Terminate) /\
  (Lifecycle.running t = false ->
     Lifecycle.start t = Lifecycle.Ok (Lifecycle.mkThreads true true)) /\
  Lifecycle.stop t = Lifecycle.mkThreads false false /\
  Lifecycle.stop (Lifecycle.stop t) = Lifecycle.stop t /\
  Lifecycle.destroy t = Lifecycle.Ok ().
Proof.
  apply (start_on_running_engine_terminates [true; false; true] (Lifecycle.mkThreads true true)).
  reflexivity.
Defined.

(** * The OCaml wrapper *)







(** * The end of the matching loop *)

Lemma match_orders_loop_size n bk : (book_size (match_orders_loop n bk) <= book_size bk)%nat.
Proof.
  revert bk. induction n as [|n IH]; intros bk; cbn [match_orders_loop]; [done|].
  destruct (match_step bk) as [bk'|] eqn:E; [|done].
  apply match_step_size in E. specialize (IH bk'). lia.
Qed.

(** X16: the matching loop ends: every iteration takes at least one order out
    of the book, so after at most as many iterations as there are resting
    orders the loop is at its exit, where a side is empty or the tops do
    not cross; more iterations than that change nothing. *)
Theorem matching_loop_ends (bk : OrderBook) (n : nat) :
  (book_size bk <= n)%nat ->
  (forall bk', match_step bk = Some bk' -> (book_size bk' < book_size bk)%nat) /\
  match_orders_loop n bk = match_orders bk /\
  match_step (match_orders bk) = None /\
  (book_size (match_orders bk) <= book_size bk)%nat.
Proof.
  intros Hn. split_and!.
  - apply match_step_size.
  - by apply match_orders_loop_fuel.
  - by apply match_orders_loop_exit.
  - apply match_orders_loop_size.
Qed.

Lemma matching_loop_ends_witness :
  (forall bk', match_step crossed_book = Some bk' ->
     (book_size bk' < book_size crossed_book)%nat) /\
  match_orders_loop 5 crossed_book = match_orders crossed_book /\
  match_step (match_orders crossed_book) = None /\
  (book_size (match_orders crossed_book) <= book_size crossed_book)%nat.
Proof. apply (matching_loop_ends crossed_book 5). vm_compute. lia. Defined.
